(** * Shallow embedding of the genetic-algorithm programs of sausheong/ga

    The repository holds several Go variants of one evolutionary search:
    - [monalisa/main.go]: evolves a raw RGBA pixel buffer; fitness is a pixel
      distance (lower is better); pool built from the best [PoolSize+1]
      organisms, with no escape hatch;
    - the triangle/circle image variants (unnamed part_000 .. part_002): same
      pool policy, with the escape hatch for a converged top slice;
    - the string variant (unnamed part_003): fitness is the fraction of
      matching bytes (higher is better), pool proportional to the maximum.

    Go numerics are written out: [int64]/[uint64] as [Z] with their
    wrap-around, [uint8] as [Byte.byte], [float64] as IEEE-754 binary64 in
    the Standard Library's [SpecFloat] (precision 53, maximal exponent 1024),
    whose operations are correctly rounded to nearest-even as in Go.
    A Go run-time panic (index or slice out of range) is [None]. The global
    [math/rand] source is an abstract state threaded through the calls. *)

From Stdlib Require Import ZArith Lia List Bool Permutation Sorted.
From Stdlib Require Import Floats.SpecFloat Strings.Byte.
Import ListNotations.
Open Scope Z_scope.

(** ** Go numeric types *)

Definition float64 := spec_float.

(** Go's [float64] operations: binary64 with round-to-nearest-even. *)
Definition f64_div : float64 -> float64 -> float64 := SFdiv 53 1024.
Definition f64_mul : float64 -> float64 -> float64 := SFmul 53 1024.
Definition f64_sqrt : float64 -> float64 := SFsqrt 53 1024.
Definition f64_lt : float64 -> float64 -> bool := SFltb.
Definition f64_zero : float64 := S754_zero false.

(** [float64(n)] for an integer [n]: rounded to nearest-even. *)
Definition float64_of_int (n : Z) : float64 := binary_normalize 53 1024 n 0 false.

Definition int64_min : Z := - 2 ^ 63.

(** [int64(f)] (and [int(f)] on 64-bit targets): truncation toward zero.
    NaN, infinities and out-of-range values are implementation-specific in
    Go; on amd64 they give the "integer indefinite" value [int64_min]. *)
Definition int64_of_float (f : float64) : Z :=
  match f with
  | S754_zero _ => 0
  | S754_finite s m e =>
      let v := if 0 <=? e then Z.shiftl (Zpos m) e else Z.shiftr (Zpos m) (- e) in
      let v' := if s then - v else v in
      if (int64_min <=? v') && (v' <? 2 ^ 63) then v' else int64_min
  | _ => int64_min
  end.

(** Two's-complement wrap-around of [int64] and of [uint64]. *)
Definition wrap64 (z : Z) : Z := (z + 2 ^ 63) mod 2 ^ 64 - 2 ^ 63.
Definition wrapu64 (z : Z) : Z := z mod 2 ^ 64.

(** A [uint8] as a number. *)
Definition u8 (b : byte) : Z := Z.of_N (Byte.to_N b).

(** ** The pixel-buffer variant ([monalisa/main.go]) *)

Record Point := mkPoint { X : Z; Y : Z }.
Record Rectangle := mkRectangle { Min : Point; Max : Point }.

(** [image.RGBA]: the pixel bytes, the stride and the bounds. *)
Record RGBA := mkRGBA { Pix : list byte; Stride : Z; Rect : Rectangle }.

(** [type Organism struct { DNA *image.RGBA; Fitness int64 }].  The
    pointer is modelled by its value: no claim below depends on sharing. *)
Record Organism := mkOrganism { DNA : RGBA; Fitness : Z }.

(** [func squareDifference(x, y uint8) uint64]:
    [d := uint64(x) - uint64(y); return d * d], both wrapping. *)
Definition squareDifference (x y : byte) : Z :=
  let d := wrapu64 (u8 x - u8 y) in
  wrapu64 (d * d).

(** The loop of [diff]: [for i := 0; i < len(a.Pix); i++ {
    d += int64(squareDifference(a.Pix[i], b.Pix[i])) }]; reading
    [b.Pix[i]] past its end panics. *)
Fixpoint diff_loop (a b : list byte) (d : Z) : option Z :=
  match a with
  | [] => Some d
  | x :: a' =>
      match b with
      | [] => None
      | y :: b' => diff_loop a' b' (wrap64 (d + wrap64 (squareDifference x y)))
      end
  end.

(** [func diff(a, b *image.RGBA) (d int64)]:
    [return int64(math.Sqrt(float64(d)))]. *)
Definition diff (a b : RGBA) : option Z :=
  match diff_loop (Pix a) (Pix b) 0 with
  | None => None
  | Some d => Some (int64_of_float (f64_sqrt (float64_of_int d)))
  end.

(** [func (o *Organism) calcFitness(target *image.RGBA)]:
    [difference := diff(o.DNA, target); if difference == 0 { o.Fitness = 1 };
     o.Fitness = difference]. Returns the updated organism. *)
Definition calcFitness (o : Organism) (target : RGBA) : option Organism :=
  match diff (DNA o) target with
  | None => None
  | Some difference =>
      let o1 := if difference =? 0 then mkOrganism (DNA o) 1 else o in
      Some (mkOrganism (DNA o1) difference)
  end.

(** The spec's distance: the integer square root of the sum of the squared
    byte differences. *)
Definition sq_sum (a b : list byte) : Z :=
  fold_right Z.add 0 (map (fun p => (u8 (fst p) - u8 (snd p)) ^ 2) (combine a b)).

(** ** The global [math/rand] source

    A state [St] threaded through the calls, with Go's two draws:
    [rand.Intn(n)] (uniform in [0, n) by its documentation; it panics when
    [n <= 0], which the callers below model) and [rand.Float64()] (in
    [[0.0, 1.0)] by its documentation). *)
Record Rand (St : Type) := mkRand {
  Intn : Z -> St -> Z * St;
  Float64 : St -> float64 * St
}.
Arguments Intn {St} _ _ _.
Arguments Float64 {St} _ _.

(** [rand.Float64]'s documented range, as binary64 comparisons. *)
Definition float64_draw_ok {St} (rs : Rand St) : Prop :=
  forall s, SFleb f64_zero (fst (Float64 rs s)) = true.

(** [rand.Intn]'s documented range: [0 <= rand.Intn(n) < n] for [n > 0]. *)
Definition intn_ok {St} (rs : Rand St) : Prop :=
  forall n s, 0 < n -> 0 <= fst (Intn rs n s) < n.

(** [rand.Read(p)] of [math/rand]: overwrites [p] with random bytes, drawn
    from the same global source. *)
Record Reader (St : Type) := mkReader {
  Read : list byte -> St -> list byte * St
}.
Arguments Read {St} _ _ _.

(** [rand.Read] fills the whole slice it is given. *)
Definition read_ok {St} (rd : Reader St) : Prop :=
  forall p s, length (fst (Read rd p s)) = length p.

(** [byte(n)] / [uint8(n)] for an [int] [n]: wraps modulo 256. *)
Definition byte_of_int (n : Z) : byte :=
  match Byte.of_N (Z.to_N (n mod 256)) with Some b => b | None => x00 end.

(** ** Go slices *)

(** [s[lo:hi]]: in bounds when [lo <= hi <= cap(s)]. Every population of
    the programs is allocated by [make([]T, n)], so its capacity is its
    length. *)
Definition slice {A} (s : list A) (lo hi : nat) : option (list A) :=
  if (lo <=? hi)%nat && (hi <=? length s)%nat
  then Some (firstn (hi - lo) (skipn lo s)) else None.

(** [sort.SliceStable(population, func(i, j int) bool {
      return population[i].Fitness < population[j].Fitness })].
    The result of a stable sort is determined by the order alone, so the
    library's insertion-sort/merge implementation is modelled by this
    stable insertion sort: an element goes after every element it is not
    [less] than. *)
Section SortStable.
  Context {O : Type} (fitness : O -> Z).

Fixpoint insert_stable (x : O) (l : list O) : list O :=
    match l with
    | [] => [x]
    | y :: l' => if fitness y <? fitness x then y :: insert_stable x l' else x :: l
    end.

Fixpoint sortSliceStable (l : list O) : list O :=
    match l with
    | [] => []
    | x :: l' => insert_stable x (sortSliceStable l')
    end.
End SortStable.

(** ** The top-slice pool ([createPool] of the image variants)

    Generic over the organism struct, which differs between the variants
    only by extra fields ([Triangles], [Circles]). *)
Section TopSlicePool.
  Context {Org : Type} (fitness : Org -> Z) (PoolSize : nat).

  (** [for i := 0; i < len(top)-1; i++ { num := f(top[PoolSize], top[i]);
       for n := int64(0); n < num; n++ { pool = append(pool, top[i]) } }] *)
Fixpoint pool_loop (num : Org -> Org -> Z) (top : list Org) (n i : nat) (pool : list Org)
    : option (list Org) :=
    match n with
    | O => Some pool
    | S n' =>
        match nth_error top PoolSize, nth_error top i with
        | Some last, Some t => pool_loop num top n' (S i) (pool ++ repeat t (Z.to_nat (num last t)))
        | _, _ => None
        end
    end.
End TopSlicePool.

Module Monalisa.
  (** [createPool] of [monalisa/main.go]: sorts the caller's slice in place,
      takes [top := population[0 : PoolSize+1]] and inserts
      [(top[PoolSize].Fitness - top[i].Fitness) * 10] copies of [top[i]].
      Returns the caller's population after the call and the pool, [None]
      when it panics. *)
Definition createPool (PoolSize : nat) (population : list Organism)
    : list Organism * option (list Organism) :=
    let population' := sortSliceStable Fitness population in
    match slice population' 0 (S PoolSize) with
    | None => (population', None)
    | Some top =>
        (population',
         pool_loop PoolSize
           (fun last t => wrap64 (wrap64 (Fitness last - Fitness t) * 10))
           top (length top - 1) 0 [])
    end.
End Monalisa.

Module Shapes.
  (** [createPool] of the triangle and circle variants (part_000 ..
      part_002): as above without the factor 10, and with the escape hatch
      [if top[len(top)-1].Fitness-top[0].Fitness == 0 { pool = population }]. *)
Definition createPool {O} (fitness : O -> Z) (PoolSize : nat) (population : list O)
    : list O * option (list O) :=
    let population' := sortSliceStable fitness population in
    match slice population' 0 (S PoolSize) with
    | None => (population', None)
    | Some top =>
        match nth_error top (length top - 1), nth_error top 0 with
        | Some l, Some f =>
            if wrap64 (fitness l - fitness f) =? 0 then (population', Some population')
            else
              (population',
               pool_loop PoolSize (fun last t => wrap64 (fitness last - fitness t))
                 top (length top - 1) 0 [])
        | _, _ => (population', None)
        end
    end.
End Shapes.

(** [func getBest(population []Organism) Organism] of the image variants:
    [best := int64(0); index := 0; for i ... { if population[i].Fitness >
    best { index = i; best = population[i].Fitness } }; return
    population[index]]. *)
Fixpoint getBest_loop (population : list Organism) (i : nat) (best : Z) (index : nat) : nat :=
  match population with
  | [] => index
  | o :: rest =>
      if best <? Fitness o then getBest_loop rest (S i) (Fitness o) i
      else getBest_loop rest (S i) best index
  end.

Definition getBest (population : list Organism) : option Organism :=
  nth_error population (getBest_loop population 0 0 0).

(** The loop of both [crossover]s: [for i := 0; i < len(d1); i++ { if i > mid
    { child[i] = d1[i] } else { child[i] = d2[i] } }]; [d1] is walked,
    [d2] indexed (a panic past its end). *)
Fixpoint crossover_loop {A} (i mid : Z) (p1 p2 : list A) : option (list A) :=
  match p1 with
  | [] => Some []
  | x :: p1' =>
      let v := if i >? mid then Some x else nth_error p2 (Z.to_nat i) in
      match v, crossover_loop (i + 1) mid p1' p2 with
      | Some v, Some c => Some (v :: c)
      | _, _ => None
      end
  end.

(** The loop of both [mutate]s: [if rand.Float64() < MutationRate {
    g[i] = regen(rand.Intn(k)) }]. *)
Fixpoint mutate_loop {St} (rs : Rand St) (MutationRate : float64) (k : Z) (regen : Z -> byte)
    (g : list byte) (s : St) : list byte * St :=
  match g with
  | [] => ([], s)
  | x :: g' =>
      let (r, s1) := Float64 rs s in
      let (x', s2) :=
        if f64_lt r MutationRate then let (v, s2) := Intn rs k s1 in (regen v, s2)
        else (x, s1) in
      let (g'', s3) := mutate_loop rs MutationRate k regen g' s2 in
      (x' :: g'', s3)
  end.

(** [crossover] of [monalisa/main.go]: the child image takes [d1]'s stride
    and bounds; [mid := rand.Intn(len(d1.DNA.Pix))]. *)
Definition crossover {St} (rs : Rand St) (d1 d2 : Organism) (s : St) : option (Organism * St) :=
  let n := Z.of_nat (length (Pix (DNA d1))) in
  if n <=? 0 then None
  else
    let (mid, s') := Intn rs n s in
    match crossover_loop 0 mid (Pix (DNA d1)) (Pix (DNA d2)) with
    | None => None
    | Some pix => Some (mkOrganism (mkRGBA pix (Stride (DNA d1)) (Rect (DNA d1))) 0, s')
    end.

(** [mutate] of [monalisa/main.go]: [o.DNA.Pix[i] = uint8(rand.Intn(255))]. *)
Definition mutate {St} (rs : Rand St) (MutationRate : float64) (o : Organism) (s : St)
  : Organism * St :=
  let (pix, s') := mutate_loop rs MutationRate 255 byte_of_int (Pix (DNA o)) s in
  (mkOrganism (mkRGBA pix (Stride (DNA o)) (Rect (DNA o))) (Fitness o), s').

(** [pool[r]] for an [int] index [r]: a panic outside [0 <= r < len(pool)]. *)
Definition go_index {A} (s : list A) (i : Z) : option A :=
  if i <? 0 then None else nth_error s (Z.to_nat i).

(** The loop of every [naturalSelection]: [next := make([]T, len(population));
    for i := 0; i < len(population); i++ { r1, r2 := rand.Intn(len(pool)),
    rand.Intn(len(pool)); a := pool[r1]; b := pool[r2]; child :=
    crossover(a, b); child.mutate(); child.calcFitness(target); next[i] =
    child }], generic over the variant's three operations; [rand.Intn(0)]
    panics. Returns [next]. *)
Section NaturalSelection.
  Context {T St : Type} (rs : Rand St)
    (cross : T -> T -> St -> option (T * St)) (mut : T -> St -> T * St)
    (fit : T -> option T).

Fixpoint selection_loop (pool : list T) (n : nat) (s : St) : option (list T * St) :=
    match n with
    | O => Some ([], s)
    | S n' =>
        let m := Z.of_nat (length pool) in
        if m <=? 0 then None
        else
          let (r1, s1) := Intn rs m s in
          let (r2, s2) := Intn rs m s1 in
          match go_index pool r1, go_index pool r2 with
          | Some a, Some b =>
              match cross a b s2 with
              | None => None
              | Some (child, s3) =>
                  let (child', s4) := mut child s3 in
                  match fit child' with
                  | None => None
                  | Some child'' =>
                      match selection_loop pool n' s4 with
                      | None => None
                      | Some (next, s5) => Some (child'' :: next, s5)
                      end
                  end
              end
          | _, _ => None
          end
    end.
End NaturalSelection.

(** [naturalSelection(pool, population, target)] of [monalisa/main.go]. *)
Definition naturalSelection {St} (rs : Rand St) (MutationRate : float64)
    (pool population : list Organism) (target : RGBA) (s : St)
    : option (list Organism * St) :=
  selection_loop rs (crossover rs) (mutate rs MutationRate)
    (fun o => calcFitness o target) pool (length population) s.

(** [createRandomImageFrom(img)]: [pix := make([]uint8, len(img.Pix));
    rand.Read(pix)], with [img]'s stride and bounds. *)
Definition createRandomImageFrom {St} (rd : Reader St) (img : RGBA) (s : St) : RGBA * St :=
  let (pix, s') := Read rd (repeat x00 (length (Pix img))) s in
  (mkRGBA pix (Stride img) (Rect img), s').

(** [createOrganism(target)]: a random image with fitness 0, then
    [organism.calcFitness(target)]. *)
Definition createOrganism {St} (rd : Reader St) (target : RGBA) (s : St)
    : option (Organism * St) :=
  let (dna, s') := createRandomImageFrom rd target s in
  match calcFitness (mkOrganism dna 0) target with
  | None => None
  | Some o => Some (o, s')
  end.

(** [createPopulation(target)]: [for i := 0; i < PopSize; i++ {
    population[i] = createOrganism(target) }]. *)
Fixpoint createPopulation {St} (rd : Reader St) (PopSize : nat) (target : RGBA) (s : St)
    : option (list Organism * St) :=
  match PopSize with
  | O => Some ([], s)
  | S n =>
      match createOrganism rd target s with
      | None => None
      | Some (o, s1) =>
          match createPopulation rd n target s1 with
          | None => None
          | Some (population, s2) => Some (o :: population, s2)
          end
      end
  end.

(** ** The string variant (part_003) *)
Module Text.
  (** [type DNA struct { Gene []byte; Fitness float64 }] *)
Record DNA := mkDNA { Gene : list byte; Fitness : float64 }.

  (** [for i := 0; i < len(d.Gene); i++ { if d.Gene[i] == target[i] {
      score++ } }]; [score] is an [int] bounded by the length. *)
Fixpoint score_loop (g t : list byte) (score : Z) : option Z :=
    match g with
    | [] => Some score
    | x :: g' =>
        match t with
        | [] => None
        | y :: t' => score_loop g' t' (if Byte.eqb x y then score + 1 else score)
        end
    end.

  (** [d.Fitness = float64(score) / float64(len(d.Gene))] *)
Definition calcFitness (d : DNA) (target : list byte) : option DNA :=
    match score_loop (Gene d) target 0 with
    | None => None
    | Some score =>
        Some (mkDNA (Gene d)
                (f64_div (float64_of_int score) (float64_of_int (Z.of_nat (length (Gene d))))))
    end.

  (** [createPool(population, target, maxFitness)]: recomputes each
      fitness in place, then appends [int((Fitness / maxFitness) * 100)]
      copies. Returns the population after the call and the pool. *)
Fixpoint createPool (population : list DNA) (target : list byte) (maxFitness : float64)
    : option (list DNA * list DNA) :=
    match population with
    | [] => Some ([], [])
    | d :: rest =>
        match calcFitness d target with
        | None => None
        | Some d' =>
            let num := int64_of_float (f64_mul (f64_div (Fitness d') maxFitness) (float64_of_int 100)) in
            match createPool rest target maxFitness with
            | None => None
            | Some (pop', pool) => Some (d' :: pop', repeat d' (Z.to_nat num) ++ pool)
            end
        end
    end.

  (** [crossover]: [mid := rand.Intn(len(d1.Gene))]. *)
Definition crossover {St} (rs : Rand St) (d1 d2 : DNA) (s : St) : option (DNA * St) :=
    let n := Z.of_nat (length (Gene d1)) in
    if n <=? 0 then None
    else
      let (mid, s') := Intn rs n s in
      match crossover_loop 0 mid (Gene d1) (Gene d2) with
      | None => None
      | Some g => Some (mkDNA g f64_zero, s')
      end.

  (** [mutate]: [d.Gene[i] = byte(rand.Intn(95) + 32)]. *)
Definition mutate {St} (rs : Rand St) (MutationRate : float64) (d : DNA) (s : St) : DNA * St :=
    let (g, s') := mutate_loop rs MutationRate 95 (fun v => byte_of_int (v + 32)) (Gene d) s in
    (mkDNA g (Fitness d), s').

  (** [naturalSelection(pool, population, target)] of the string variant. *)
Definition naturalSelection {St} (rs : Rand St) (MutationRate : float64)
    (pool population : list DNA) (target : list byte) (s : St) : option (list DNA * St) :=
    selection_loop rs (crossover rs) (mutate rs MutationRate)
      (fun d => calcFitness d target) pool (length population) s.

  (** The loop of [createDNA]: [for i := 0; i < len(target); i++ {
      ba[i] = byte(rand.Intn(95) + 32) }]. *)
Fixpoint randomGene {St} (rs : Rand St) (n : nat) (s : St) : list byte * St :=
    match n with
    | O => ([], s)
    | S n' =>
        let (v, s1) := Intn rs 95 s in
        let (g, s2) := randomGene rs n' s1 in
        (byte_of_int (v + 32) :: g, s2)
    end.

  (** [createDNA(target)]: a random gene with fitness 0, then
      [dna.calcFitness(target)]. *)
Definition createDNA {St} (rs : Rand St) (target : list byte) (s : St) : option (DNA * St) :=
    let (ba, s') := randomGene rs (length target) s in
    match calcFitness (mkDNA ba f64_zero) target with
    | None => None
    | Some d => Some (d, s')
    end.

  (** [createPopulation(target)]: [PopSize] calls of [createDNA(target)]. *)
Fixpoint createPopulation {St} (rs : Rand St) (PopSize : nat) (target : list byte) (s : St)
    : option (list DNA * St) :=
    match PopSize with
    | O => Some ([], s)
    | S n =>
        match createDNA rs target s with
        | None => None
        | Some (d, s1) =>
            match createPopulation rs n target s1 with
            | None => None
            | Some (population, s2) => Some (d :: population, s2)
            end
        end
    end.
End Text.

(** [color.RGBA] of [image/color]. *)
Module color.
Record RGBA := mkRGBA { R : byte; G : byte; B : byte; A : byte }.
End color.

(** [uint8(rand.Intn(255))], four times: a random colour. *)
Definition randomColor {St} (rs : Rand St) (s : St) : color.RGBA * St :=
  let (r, s1) := Intn rs 255 s in
  let (g, s2) := Intn rs 255 s1 in
  let (b, s3) := Intn rs 255 s2 in
  let (a, s4) := Intn rs 255 s3 in
  (color.mkRGBA (byte_of_int r) (byte_of_int g) (byte_of_int b) (byte_of_int a), s4).

(** The triangle variant (part_000). *)
Module Triangles.
Record Triangle := mkTriangle { P1 : Point; P2 : Point; P3 : Point; Color : color.RGBA }.

  (** [createTriangle(w, h)]: [p1 := Point{X: rand.Intn(w), Y: rand.Intn(h)}];
      [p2] and [p3] at [p1.X + (rand.Intn(30) - 15)], [p1.Y + (rand.Intn(30) - 15)]
      ([int] arithmetic); then the colour. *)
Definition createTriangle {St} (rs : Rand St) (w h : Z) (s : St) : option (Triangle * St) :=
    if w <=? 0 then None
    else
      let (x1, s1) := Intn rs w s in
      if h <=? 0 then None
      else
        let (y1, s2) := Intn rs h s1 in
        let (dx2, s3) := Intn rs 30 s2 in
        let (dy2, s4) := Intn rs 30 s3 in
        let (dx3, s5) := Intn rs 30 s4 in
        let (dy3, s6) := Intn rs 30 s5 in
        let (c, s7) := randomColor rs s6 in
        Some (mkTriangle (mkPoint x1 y1)
                (mkPoint (wrap64 (x1 + wrap64 (dx2 - 15))) (wrap64 (y1 + wrap64 (dy2 - 15))))
                (mkPoint (wrap64 (x1 + wrap64 (dx3 - 15))) (wrap64 (y1 + wrap64 (dy3 - 15))))
                c, s7).
End Triangles.

(** The circle variants (part_001, part_002). *)
Module Circles.
Record Circle := mkCircle { X : Z; Y : Z; R : Z; Color : color.RGBA }.

  (** [createCircle(w, h)]: [X: rand.Intn(w), Y: rand.Intn(h),
      R: rand.Intn(MaxCircleSize)], then the colour. *)
Definition createCircle {St} (rs : Rand St) (MaxCircleSize w h : Z) (s : St)
    : option (Circle * St) :=
    if w <=? 0 then None
    else
      let (x, s1) := Intn rs w s in
      if h <=? 0 then None
      else
        let (y, s2) := Intn rs h s1 in
        if MaxCircleSize <=? 0 then None
        else
          let (r, s3) := Intn rs MaxCircleSize s2 in
          let (c, s4) := randomColor rs s3 in
          Some (mkCircle x y r c, s4).
End Circles.

(** ** The spec's arithmetic, for comparison with the code *)

(** The exact value of a float64 as a fraction [f64_num f / f64_den f]
    (zero for zeros, infinities and NaN). *)
Definition f64_num (f : float64) : Z :=
  match f with
  | S754_finite s m e => (if s then -1 else 1) * Zpos m * 2 ^ Z.max e 0
  | _ => 0
  end.

Definition f64_den (f : float64) : Z :=
  match f with
  | S754_finite _ _ e => 2 ^ Z.max (- e) 0
  | _ => 1
  end.

(** The spec's copy count [floor((fitness / maxFitness) * 100)], computed
    exactly on the values of the two floats. *)
Definition exact_copies (fitness maxFitness : float64) : Z :=
  (100 * f64_num fitness * f64_den maxFitness) / (f64_den fitness * f64_num maxFitness).

(** The copy count of the proportional pool as the code computes it:
    [int((Fitness / maxFitness) * 100)] in float64. *)
Definition code_copies (fitness maxFitness : float64) : Z :=
  int64_of_float (f64_mul (f64_div fitness maxFitness) (float64_of_int 100)).

(** The spec's count for the string variant: the number of positions where
    the genome byte equals the target byte. *)
Definition matches (g t : list byte) : Z :=
  Z.of_nat (length (filter (fun p => Byte.eqb (fst p) (snd p)) (combine g t))).

(** The float64 [1.0] ([2^52 * 2^-52]). *)
Definition f64_one : float64 := S754_finite false 4503599627370496 (-52).

(** The last step of binary64 rounding for a mantissa [M] in [[2^52, 2^53]]
    rounded at exponent [e]: a carry to [2^53] moves to the next exponent. *)
Definition round_finish (M e : Z) : float64 :=
  if M =? 2 ^ 53 then S754_finite false 4503599627370496 (e + 1)
  else S754_finite false (Z.to_pos M) e.

(** ** Concrete inputs *)

(** A 4x4 RGBA image ([Stride] 16) with the given pixel bytes. *)
Definition image4x4 (pix : list byte) : RGBA :=
  mkRGBA pix 16 (mkRectangle (mkPoint 0 0) (mkPoint 4 4)).

(** A random source whose [Intn(n)] is [n-1] and whose [Float64] is [0.0]. *)
Definition sample_rand : Rand nat :=
  mkRand nat (fun n s => (n - 1, S s)) (fun s => (f64_zero, S s)).

(** A [rand.Read] that fills the slice with [0x2a]. *)
Definition sample_reader : Reader nat :=
  mkReader nat (fun p s => (map (fun _ => x2a) p, S s)).

(** An RGBA image of one row of [w] pixels ([Stride] [4 * w]). *)
Definition row_image (pix : list byte) (w : Z) : RGBA :=
  mkRGBA pix (4 * w) (mkRectangle (mkPoint 0 0) (mkPoint w 1)).

(** Two pixel buffers of [69259511908] bytes (a row of [17314877977]
    pixels) whose squared differences sum to [2^52 + 2^27]:
    [69259511904] pairs [0xff]/[0x00] and the pairs [4, 32, 172, 0]/[0]. *)
Definition far_pix_a : list byte := repeat xff (Z.to_nat 69259511904) ++ [x04; x20; xac; x00].
Definition far_pix_b : list byte := repeat x00 (Z.to_nat 69259511904) ++ [x00; x00; x00; x00].

(** * Proofs *)

(** ** Integer arithmetic of the pixel distance *)

Lemma wrap64_id z : - 2 ^ 63 <= z < 2 ^ 63 -> wrap64 z = z.
Proof.
  intros H. unfold wrap64. rewrite Z.mod_small; lia.
Qed.

Lemma u8_range b : 0 <= u8 b <= 255.
Proof.
  unfold u8. pose proof (Byte.to_N_bounded b). lia.
Qed.

Lemma sq_byte_bound t : -255 <= t <= 255 -> 0 <= t * t <= 65025.
Proof.
  intros H. assert (0 <= (255 - t) * (255 + t)) by (apply Z.mul_nonneg_nonneg; lia).
  split; nia.
Qed.

(** The wrapping [uint64] subtraction squares to the exact square. *)
Lemma squareDifference_exact x y : squareDifference x y = (u8 x - u8 y) ^ 2.
Proof.
  unfold squareDifference, wrapu64.
  pose proof (u8_range x). pose proof (u8_range y).
  rewrite <- Z.mul_mod by lia.
  rewrite Z.mod_small; [ring|].
  pose proof (sq_byte_bound (u8 x - u8 y) ltac:(lia)).
  change (2 ^ 64) with 18446744073709551616. lia.
Qed.

Lemma squareDifference_bound x y : 0 <= squareDifference x y <= 65025.
Proof.
  rewrite squareDifference_exact.
  pose proof (u8_range x). pose proof (u8_range y).
  pose proof (sq_byte_bound (u8 x - u8 y) ltac:(lia)).
  rewrite Z.pow_2_r. lia.
Qed.

Lemma sq_sum_cons x a y b : sq_sum (x :: a) (y :: b) = (u8 x - u8 y) ^ 2 + sq_sum a b.
Proof. reflexivity. Qed.

Lemma sq_sum_nil_l b : sq_sum [] b = 0.
Proof. reflexivity. Qed.

Lemma sq_sum_nonneg a b : 0 <= sq_sum a b.
Proof.
  revert b; induction a as [|x a IH]; intros [|y b]; try (unfold sq_sum; simpl; lia).
  - rewrite sq_sum_cons. specialize (IH b).
    pose proof (Z.square_nonneg (u8 x - u8 y)). rewrite Z.pow_2_r. lia.
Qed.

(** While the running sum stays below [2^63], the loop of [diff] adds the
    exact squares. *)
Lemma diff_loop_sum a b d :
  length a = length b -> 0 <= d -> d + sq_sum a b < 2 ^ 63 ->
  diff_loop a b d = Some (d + sq_sum a b).
Proof.
  revert b d; induction a as [|x a IH]; intros [|y b] d Hl Hd Hs; try discriminate.
  - rewrite sq_sum_nil_l in *. simpl. f_equal; lia.
  - rewrite sq_sum_cons in *. simpl in Hl |- *.
    pose proof (squareDifference_bound x y) as Hb.
    pose proof (sq_sum_nonneg a b).
    rewrite (wrap64_id (squareDifference x y)) by lia.
    rewrite squareDifference_exact in *.
    rewrite wrap64_id by nia.
    rewrite IH by (try lia; nia). f_equal; lia.
Qed.

Lemma diff_loop_defined a b d :
  length a = length b -> exists d', diff_loop a b d = Some d'.
Proof.
  revert b d; induction a as [|x a IH]; intros [|y b] d Hl; simpl in *; try discriminate.
  - eauto.
  - apply IH. lia.
Qed.

Lemma squareDifference_same x : squareDifference x x = 0.
Proof. rewrite squareDifference_exact. ring. Qed.

Lemma diff_loop_same a : diff_loop a a 0 = Some 0.
Proof.
  induction a as [|x a IH]; simpl; [reflexivity|].
  rewrite squareDifference_same. exact IH.
Qed.

Lemma diff_same a b : Pix a = Pix b -> diff a b = Some 0.
Proof.
  intros H. unfold diff. rewrite H, diff_loop_same. reflexivity.
Qed.

Lemma calcFitness_diff o target d :
  diff (DNA o) target = Some d -> calcFitness o target = Some (mkOrganism (DNA o) d).
Proof.
  intros H. unfold calcFitness. rewrite H.
  destruct (d =? 0); reflexivity.
Qed.

(** ** Go slices and the stable sort *)

Section SortFacts.
  Context {O : Type} (fitness : O -> Z).

Lemma insert_stable_perm x l : Permutation (x :: l) (insert_stable fitness x l).
  Proof.
    induction l as [|y l IH]; simpl; [reflexivity|].
    destruct (fitness y <? fitness x); [|reflexivity].
    rewrite <- IH. apply perm_swap.
  Qed.

Lemma sortSliceStable_perm l : Permutation l (sortSliceStable fitness l).
  Proof.
    induction l as [|x l IH]; simpl; [constructor|].
    rewrite <- insert_stable_perm. constructor. exact IH.
  Qed.

Lemma insert_stable_sorted x l :
    Sorted (fun a b : O => fitness a <= fitness b) l -> Sorted (fun a b : O => fitness a <= fitness b) (insert_stable fitness x l).
  Proof.
    induction 1 as [|y l Hs IH Hhd]; simpl.
    - repeat constructor.
    - destruct (fitness y <? fitness x) eqn:E.
      + apply Z.ltb_lt in E. constructor; [exact IH|].
        destruct l as [|z l]; simpl.
        * constructor. cbv beta. lia.
        * inversion Hhd; subst.
          destruct (fitness z <? fitness x); constructor; cbv beta in *; lia.
      + apply Z.ltb_ge in E. constructor; [constructor; assumption|].
        constructor. cbv beta. lia.
  Qed.

Lemma sortSliceStable_sorted l : Sorted (fun a b : O => fitness a <= fitness b) (sortSliceStable fitness l).
  Proof.
    induction l as [|x l IH]; simpl; [constructor|].
    apply insert_stable_sorted, IH.
  Qed.

Lemma sortSliceStable_length l : length (sortSliceStable fitness l) = length l.
  Proof. symmetry. apply Permutation_length, sortSliceStable_perm. Qed.
End SortFacts.

Lemma slice_prefix {A} (s : list A) hi :
  (hi <= length s)%nat -> slice s 0 hi = Some (firstn hi s).
Proof.
  intros H. unfold slice. simpl.
  apply Nat.leb_le in H. rewrite H. simpl. rewrite Nat.sub_0_r. reflexivity.
Qed.

Lemma slice_out {A} (s : list A) hi :
  (length s < hi)%nat -> slice s 0 hi = None.
Proof.
  intros H. unfold slice. simpl.
  destruct (Nat.leb_spec hi (length s)); [lia|reflexivity].
Qed.

Lemma pool_loop_defined {Org} (PoolSize : nat) num (top : list Org) n i pool :
  (PoolSize < length top)%nat -> (i + n <= length top)%nat ->
  exists pool', pool_loop PoolSize num top n i pool = Some pool'.
Proof.
  revert i pool; induction n as [|n IH]; intros i pool H1 H2; simpl; [eauto|].
  destruct (nth_error top PoolSize) eqn:E1.
  2: { apply nth_error_None in E1; lia. }
  destruct (nth_error top i) eqn:E2.
  2: { apply nth_error_None in E2; lia. }
  apply IH; lia.
Qed.

Lemma createPool_main_population P pop :
  fst (Monalisa.createPool P pop) = sortSliceStable Fitness pop.
Proof.
  unfold Monalisa.createPool. destruct (slice _ _ _); reflexivity.
Qed.

Lemma createPool_shapes_population {O} (fitness : O -> Z) P pop :
  fst (Shapes.createPool fitness P pop) = sortSliceStable fitness pop.
Proof.
  unfold Shapes.createPool. destruct (slice _ _ _) as [top|]; [|reflexivity].
  destruct (nth_error top _), (nth_error top 0); try reflexivity.
  destruct (_ =? 0); reflexivity.
Qed.

(** ** Crossover and mutation *)

Lemma crossover_loop_spec {A} (p1 p2 : list A) i mid :
  0 <= i -> (Z.to_nat i + length p1 <= length p2)%nat ->
  exists c, crossover_loop i mid p1 p2 = Some c /\ length c = length p1 /\
    forall k, (k < length p1)%nat ->
      nth_error c k = if i + Z.of_nat k >? mid then nth_error p1 k
                      else nth_error p2 (Z.to_nat i + k).
Proof.
  revert i; induction p1 as [|x p1 IH]; intros i Hi Hl; simpl in *.
  - exists []. split; [reflexivity|]. split; [reflexivity|]. intros k Hk; lia.
  - destruct (IH (i + 1)) as (c & Hc & Hlen & Hnth); [lia| rewrite Z2Nat.inj_add by lia; simpl; lia|].
    rewrite Hc.
    destruct (nth_error p2 (Z.to_nat i)) as [y|] eqn:Ey.
    2: { apply nth_error_None in Ey. lia. }
    destruct (i >? mid) eqn:Ei.
    + exists (x :: c). split; [reflexivity|]. split; [simpl; lia|].
      intros [|k] Hk; simpl.
      * rewrite Z.add_0_r, Ei. reflexivity.
      * rewrite Hnth by lia. rewrite Z2Nat.inj_add by lia.
        replace (i + 1 + Z.of_nat k) with (i + Z.of_nat (S k)) by lia.
        simpl. rewrite Nat.add_succ_r, Nat.add_1_r. reflexivity.
    + exists (y :: c). split; [reflexivity|]. split; [simpl; lia|].
      intros [|k] Hk; simpl.
      * rewrite Z.add_0_r, Ei, Nat.add_0_r. symmetry; exact Ey.
      * rewrite Hnth by lia. rewrite Z2Nat.inj_add by lia.
        replace (i + 1 + Z.of_nat k) with (i + Z.of_nat (S k)) by lia.
        simpl. rewrite Nat.add_succ_r, Nat.add_1_r. reflexivity.
Qed.

Lemma f64_lt_draw_zero r : SFleb f64_zero r = true -> f64_lt r f64_zero = false.
Proof.
  unfold f64_lt, SFltb, SFleb, f64_zero; destruct r as [s|s| |s m e]; try destruct s; simpl; congruence.
Qed.

Lemma mutate_loop_rate_zero {St} (rs : Rand St) k regen g s :
  float64_draw_ok rs -> fst (mutate_loop rs f64_zero k regen g s) = g.
Proof.
  intros Hd. revert s; induction g as [|x g IH]; intros s; simpl; [reflexivity|].
  specialize (Hd s). destruct (Float64 rs s) as [r s1] eqn:E. simpl in Hd.
  rewrite (f64_lt_draw_zero r Hd).
  specialize (IH s1). destruct (mutate_loop rs f64_zero k regen g s1) as [g'' s3].
  simpl in *. congruence.
Qed.

Lemma text_mutate_rate_zero {St} (rs : Rand St) d s :
  float64_draw_ok rs -> fst (Text.mutate rs f64_zero d s) = d.
Proof.
  intros Hd. unfold Text.mutate.
  pose proof (mutate_loop_rate_zero rs 95 (fun v => byte_of_int (v + 32)) (Text.Gene d) s Hd) as H.
  destruct (mutate_loop _ _ _ _ _ _) as [g s']. simpl in *. subst. destruct d; reflexivity.
Qed.

Lemma mutate_rate_zero {St} (rs : Rand St) o s :
  float64_draw_ok rs -> fst (mutate rs f64_zero o s) = o.
Proof.
  intros Hd. unfold mutate.
  pose proof (mutate_loop_rate_zero rs 255 byte_of_int (Pix (DNA o)) s Hd) as H.
  destruct (mutate_loop _ _ _ _ _ _) as [g s']. simpl in *. subst.
  destruct o as [[pix st r] f]; reflexivity.
Qed.

(** * The claims *)

(** ** Fitness of the pixel variant *)

(** Claim C3: for an organism and a target whose pixel buffers have the same
    length, the pixel-distance [calcFitness] sets [Fitness] to exactly
    [diff(DNA, target)] (the branch assigning 1 has no effect), and an
    organism whose DNA equals the target byte for byte gets fitness 0. *)
Theorem calcFitness_is_diff (o : Organism) (target : RGBA) :
  length (Pix (DNA o)) = length (Pix target) ->
  (exists d, diff (DNA o) target = Some d /\
             calcFitness o target = Some (mkOrganism (DNA o) d)) /\
  (Pix (DNA o) = Pix target -> calcFitness o target = Some (mkOrganism (DNA o) 0)).
Proof.
  intros Hl. split.
  - destruct (diff_loop_defined (Pix (DNA o)) (Pix target) 0 Hl) as [d0 Hd0].
    exists (int64_of_float (f64_sqrt (float64_of_int d0))).
    assert (Hd : diff (DNA o) target = Some (int64_of_float (f64_sqrt (float64_of_int d0))))
      by (unfold diff; rewrite Hd0; reflexivity).
    split; [exact Hd|]. apply calcFitness_diff, Hd.
  - intros Hp. apply calcFitness_diff, diff_same, Hp.
Qed.

Lemma calcFitness_is_diff_witness :
  calcFitness (mkOrganism (image4x4 (repeat x80 64)) 5) (image4x4 (repeat x80 64))
  = Some (mkOrganism (image4x4 (repeat x80 64)) 0).
Proof.
  apply (proj2 (calcFitness_is_diff (mkOrganism (image4x4 (repeat x80 64)) 5)
                  (image4x4 (repeat x80 64)) eq_refl)).
  reflexivity.
Defined.

(** ** Crossover *)

(** Claim C6: for parents of the same positive length, [crossover] draws
    one cut [m := rand.Intn(length)] in [[0, length)] (uniform by the
    contract of [rand.Intn]); the child takes positions [<= m] from the
    second parent and positions [> m] from the first, and has the parents'
    length. Both the string and the pixel crossover. *)
Theorem crossover_single_cut {St} (rs : Rand St) :
  (forall n s, 0 < n -> 0 <= fst (Intn rs n s) < n) ->
  (forall (a b : Text.DNA) s,
     length (Text.Gene a) = length (Text.Gene b) -> (0 < length (Text.Gene a))%nat ->
     0 <= fst (Intn rs (Z.of_nat (length (Text.Gene a))) s) < Z.of_nat (length (Text.Gene a)) /\
     exists child,
       Text.crossover rs a b s = Some (child, snd (Intn rs (Z.of_nat (length (Text.Gene a))) s)) /\
       length (Text.Gene child) = length (Text.Gene a) /\
       length (Text.Gene child) = length (Text.Gene b) /\
       forall i, (i < length (Text.Gene a))%nat ->
         nth_error (Text.Gene child) i =
           if Z.of_nat i <=? fst (Intn rs (Z.of_nat (length (Text.Gene a))) s)
           then nth_error (Text.Gene b) i else nth_error (Text.Gene a) i) /\
  (forall (a b : Organism) s,
     length (Pix (DNA a)) = length (Pix (DNA b)) -> (0 < length (Pix (DNA a)))%nat ->
     0 <= fst (Intn rs (Z.of_nat (length (Pix (DNA a)))) s) < Z.of_nat (length (Pix (DNA a))) /\
     exists child,
       crossover rs a b s = Some (child, snd (Intn rs (Z.of_nat (length (Pix (DNA a)))) s)) /\
       length (Pix (DNA child)) = length (Pix (DNA a)) /\
       length (Pix (DNA child)) = length (Pix (DNA b)) /\
       forall i, (i < length (Pix (DNA a)))%nat ->
         nth_error (Pix (DNA child)) i =
           if Z.of_nat i <=? fst (Intn rs (Z.of_nat (length (Pix (DNA a)))) s)
           then nth_error (Pix (DNA b)) i else nth_error (Pix (DNA a)) i).
Proof.
  intros HI. split.
  - intros a b s Hl Hpos.
    set (n := Z.of_nat (length (Text.Gene a))).
    assert (Hn : 0 < n) by (unfold n; lia).
    pose proof (HI n s Hn) as Hm. split; [exact Hm|].
    unfold Text.crossover. fold n.
    destruct (Z.leb_spec n 0); [lia|].
    destruct (Intn rs n s) as [mid s'] eqn:Ei. simpl in Hm |- *.
    destruct (crossover_loop_spec (Text.Gene a) (Text.Gene b) 0 mid) as (c & Hc & Hlen & Hnth);
      [lia | simpl; lia |].
    rewrite Hc. exists (Text.mkDNA c f64_zero). simpl.
    split; [reflexivity|]. split; [exact Hlen|]. split; [lia|].
    intros i Hi. rewrite Hnth by exact Hi. simpl. rewrite Z.gtb_ltb.
    destruct (Z.ltb_spec mid (Z.of_nat i)), (Z.leb_spec (Z.of_nat i) mid); try lia; reflexivity.
  - intros a b s Hl Hpos.
    set (n := Z.of_nat (length (Pix (DNA a)))).
    assert (Hn : 0 < n) by (unfold n; lia).
    pose proof (HI n s Hn) as Hm. split; [exact Hm|].
    unfold crossover. fold n.
    destruct (Z.leb_spec n 0); [lia|].
    destruct (Intn rs n s) as [mid s'] eqn:Ei. simpl in Hm |- *.
    destruct (crossover_loop_spec (Pix (DNA a)) (Pix (DNA b)) 0 mid) as (c & Hc & Hlen & Hnth);
      [lia | simpl; lia |].
    rewrite Hc. exists (mkOrganism (mkRGBA c (Stride (DNA a)) (Rect (DNA a))) 0). simpl.
    split; [reflexivity|]. split; [exact Hlen|]. split; [lia|].
    intros i Hi. rewrite Hnth by exact Hi. simpl. rewrite Z.gtb_ltb.
    destruct (Z.ltb_spec mid (Z.of_nat i)), (Z.leb_spec (Z.of_nat i) mid); try lia; reflexivity.
Qed.

Lemma crossover_single_cut_witness :
  exists child,
    Text.crossover sample_rand (Text.mkDNA [x41; x42; x43] f64_zero)
      (Text.mkDNA [x61; x62; x63] f64_zero) 0%nat = Some (child, 1%nat) /\
    length (Text.Gene child) = 3%nat.
Proof.
  destruct (proj1 (crossover_single_cut sample_rand
              (fun n s Hn => ltac:(simpl; lia)))
              (Text.mkDNA [x41; x42; x43] f64_zero) (Text.mkDNA [x61; x62; x63] f64_zero)
              0%nat eq_refl ltac:(simpl; lia)) as [_ (child & H1 & H2 & _)].
  exists child. split; [exact H1 | exact H2].
Defined.

(** ** Mutation *)

(** Claim C8: with [MutationRate == 0], [mutate] leaves every genome
    unchanged (no [rand.Float64()] draw in [[0.0, 1.0)] is below [0.0]), so
    the child of crossover-then-mutate is the crossover child itself; for
    the string and the pixel variants. *)
Theorem mutate_rate_zero_identity {St} (rs : Rand St) :
  float64_draw_ok rs ->
  (forall a b s child s', Text.crossover rs a b s = Some (child, s') ->
     fst (Text.mutate rs f64_zero child s') = child) /\
  (forall a b s child s', crossover rs a b s = Some (child, s') ->
     fst (mutate rs f64_zero child s') = child) /\
  (forall d s, fst (Text.mutate rs f64_zero d s) = d) /\
  (forall o s, fst (mutate rs f64_zero o s) = o).
Proof.
  intros Hd. repeat split; intros.
  - apply text_mutate_rate_zero, Hd.
  - apply mutate_rate_zero, Hd.
  - apply text_mutate_rate_zero, Hd.
  - apply mutate_rate_zero, Hd.
Qed.

Lemma mutate_rate_zero_identity_witness :
  fst (Text.mutate sample_rand f64_zero (Text.mkDNA [x41; x42] f64_zero) 0%nat)
  = Text.mkDNA [x41; x42] f64_zero.
Proof.
  apply (proj1 (proj2 (proj2 (mutate_rate_zero_identity sample_rand (fun s => eq_refl))))).

Defined.

(** ** Slicing the sorted population *)

(** Claim C9: the image variants' [createPool] slices
    [population[0:PoolSize+1]]: with [PoolSize+1] above the population size
    it panics (slice bounds out of range); with [0 < PoolSize < len] no
    access is out of range and a pool is returned. *)
Theorem createPool_slice_bounds :
  (forall PoolSize population, (length population < S PoolSize)%nat ->
     snd (Monalisa.createPool PoolSize population) = None) /\
  (forall PoolSize population, (0 < PoolSize < length population)%nat ->
     exists pool, snd (Monalisa.createPool PoolSize population) = Some pool) /\
  (forall O (fitness : O -> Z) PoolSize population, (length population < S PoolSize)%nat ->
     snd (Shapes.createPool fitness PoolSize population) = None) /\
  (forall O (fitness : O -> Z) PoolSize population, (0 < PoolSize < length population)%nat ->
     exists pool, snd (Shapes.createPool fitness PoolSize population) = Some pool).
Proof.
  repeat split.
  - intros P pop H. unfold Monalisa.createPool.
    rewrite slice_out by (rewrite sortSliceStable_length; exact H). reflexivity.
  - intros P pop H. unfold Monalisa.createPool.
    rewrite slice_prefix by (rewrite sortSliceStable_length; lia). cbn [snd].
    apply pool_loop_defined;
      rewrite length_firstn, sortSliceStable_length; lia.
  - intros O fitness P pop H. unfold Shapes.createPool.
    rewrite slice_out by (rewrite sortSliceStable_length; exact H). reflexivity.
  - intros O fitness P pop H. unfold Shapes.createPool.
    rewrite slice_prefix by (rewrite sortSliceStable_length; lia).
    set (top := firstn (S P) (sortSliceStable fitness pop)).
    assert (Ht : length top = S P)
      by (unfold top; rewrite length_firstn, sortSliceStable_length; lia).
    destruct (nth_error top (length top - 1)) eqn:E1.
    2: { apply nth_error_None in E1. lia. }
    destruct (nth_error top 0) eqn:E2.
    2: { apply nth_error_None in E2. lia. }
    destruct (_ =? 0); simpl; [eauto|].
    apply pool_loop_defined; lia.
Qed.

Lemma createPool_slice_bounds_witness :
  snd (Monalisa.createPool 3 (repeat (mkOrganism (image4x4 []) 7) 3)) = None /\
  exists pool, snd (Monalisa.createPool 2 (repeat (mkOrganism (image4x4 []) 7) 3)) = Some pool.
Proof.
  split.
  - apply (proj1 createPool_slice_bounds). simpl. lia.
  - apply (proj1 (proj2 createPool_slice_bounds)). simpl. lia.
Defined.

(** ** Sorting by fitness *)

(** Claim C10: the image variants' [createPool] sorts the caller's slice in
    place: afterwards the population is a permutation of the one passed in
    (each organism, DNA and fitness, unchanged) ordered by non-decreasing
    fitness. *)
Theorem createPool_sorts_population :
  (forall PoolSize population,
     Permutation population (fst (Monalisa.createPool PoolSize population)) /\
     Sorted (fun a b => Fitness a <= Fitness b) (fst (Monalisa.createPool PoolSize population))) /\
  (forall O (fitness : O -> Z) PoolSize population,
     Permutation population (fst (Shapes.createPool fitness PoolSize population)) /\
     Sorted (fun a b => fitness a <= fitness b) (fst (Shapes.createPool fitness PoolSize population))).
Proof.
  split.
  - intros P pop. rewrite createPool_main_population.
    split; [apply sortSliceStable_perm | apply sortSliceStable_sorted].
  - intros O fitness P pop. rewrite createPool_shapes_population.
    split; [apply sortSliceStable_perm | apply sortSliceStable_sorted].
Qed.

(** ** The pool of a converged population *)

(** Claim C1 (a defect of [monalisa/main.go]): on a population of
    [PopSize = 250] organisms of equal fitness, its [createPool]
    ([PoolSize = 30]) has no escape hatch and returns an empty pool, on
    which [naturalSelection]'s [rand.Intn(len(pool))] panics. *)
Theorem createPool_converged_empty :
  snd (Monalisa.createPool 30 (repeat (mkOrganism (image4x4 (repeat x80 64)) 9000) 250))
  = Some [].
Proof. vm_compute. reflexivity. Qed.

(** ** Selecting the best organism *)

(** Claim C2 (a defect of the image variants): [getBest] keeps the organism
    of largest fitness although a lower pixel distance is better: of two
    organisms of distance 5 and 10 it returns the one of distance 10. *)
Theorem getBest_picks_largest_distance :
  getBest [mkOrganism (image4x4 []) 5; mkOrganism (image4x4 []) 10]
  = Some (mkOrganism (image4x4 []) 10) /\
  Fitness (mkOrganism (image4x4 []) 5) < Fitness (mkOrganism (image4x4 []) 10).
Proof. split; [reflexivity | simpl; lia]. Qed.

(** ** The proportional pool of the string variant *)

Lemma score_loop_defined g t score :
  (length g <= length t)%nat -> exists sc, Text.score_loop g t score = Some sc.
Proof.
  revert t score; induction g as [|x g IH]; intros [|y t] score H; simpl in *.
  - eauto.
  - eauto.
  - lia.
  - apply IH. lia.
Qed.

Lemma text_calcFitness_defined d target :
  (length (Text.Gene d) <= length target)%nat ->
  exists d', Text.calcFitness d target = Some d' /\ Text.Gene d' = Text.Gene d.
Proof.
  intros H. destruct (score_loop_defined (Text.Gene d) target 0 H) as [sc Hs].
  unfold Text.calcFitness. rewrite Hs. eexists; split; reflexivity.
Qed.

Lemma code_copies_zero sg maxFitness :
  SFltb f64_zero maxFitness = true -> code_copies (S754_zero sg) maxFitness = 0.
Proof.
  unfold code_copies, f64_div, f64_mul, SFltb, f64_zero.
  destruct maxFitness as [s|s| |s m e]; try destruct s; simpl; try discriminate;
    intros _; destruct sg; reflexivity.
Qed.

(** Claim C7 as stated, with [floor] taken exactly, fails: for a 64-byte
    target, an organism matching 29 bytes (fitness 0.453125) and
    [maxFitness] 50/64 = 0.78125 (the best organism matching 50 bytes), the
    pool gets 57 copies where [floor((0.453125 / 0.78125) * 100) = 58]:
    the float64 quotient 0.58 rounds below 0.58. *)
Lemma createPool_exact_floor_counterexample :
  ~ (forall population target maxFitness pop' pool,
       SFltb f64_zero maxFitness = true ->
       Text.createPool population target maxFitness = Some (pop', pool) ->
       pool = flat_map (fun d => repeat d (Z.to_nat (exact_copies (Text.Fitness d) maxFitness))) pop').
Proof.
  intros H.
  set (target := repeat x41 64).
  set (g := repeat x41 29 ++ repeat x42 35).
  set (mx := f64_div (float64_of_int 50) (float64_of_int 64)).
  destruct (Text.createPool [Text.mkDNA g f64_zero] target mx) as [[pop' pool]|] eqn:E.
  2: { vm_compute in E. discriminate. }
  specialize (H [Text.mkDNA g f64_zero] target mx pop' pool ltac:(vm_compute; reflexivity) E).
  apply (f_equal (@length _)) in H.
  vm_compute in E. injection E as <- <-.
  vm_compute in H. discriminate.
Qed.

(** Claim C7 (amended): under the proportional pool with [maxFitness > 0],
    [createPool] recomputes each organism's fitness and inserts
    [int((fitness / maxFitness) * 100)] copies of it, the quotient and the
    product being float64 operations and [int] a truncation; an organism
    of zero fitness gets no copy. *)
Theorem createPool_float_copies population target maxFitness :
  SFltb f64_zero maxFitness = true ->
  Forall (fun d => (length (Text.Gene d) <= length target)%nat) population ->
  exists pop' pool,
    Text.createPool population target maxFitness = Some (pop', pool) /\
    Forall2 (fun d d' => Text.calcFitness d target = Some d') population pop' /\
    pool = flat_map (fun d => repeat d (Z.to_nat (code_copies (Text.Fitness d) maxFitness))) pop' /\
    (forall d sg, In d pop' -> Text.Fitness d = S754_zero sg ->
       code_copies (Text.Fitness d) maxFitness = 0).
Proof.
  intros Hmax Hlen.
  assert (Hz : forall d sg, Text.Fitness d = S754_zero sg ->
                 code_copies (Text.Fitness d) maxFitness = 0)
    by (intros d sg E; rewrite E; apply code_copies_zero, Hmax).
  induction Hlen as [|d population Hd Hrest IH].
  - exists [], []. repeat split; [constructor | intros d sg []].
  - destruct IH as (pop' & pool & Hc & Hf & Hp & _).
    destruct (text_calcFitness_defined d target Hd) as (d' & Hd' & _).
    exists (d' :: pop'), (repeat d' (Z.to_nat (code_copies (Text.Fitness d') maxFitness)) ++ pool).
    split; [simpl; rewrite Hd', Hc; reflexivity|].
    split; [constructor; assumption|].
    split; [simpl; rewrite Hp; reflexivity|].
    intros d0 sg _ E. apply (Hz d0 sg E).
Qed.

Lemma createPool_float_copies_witness :
  exists pop' pool,
    Text.createPool [Text.mkDNA [x41; x42] f64_zero] [x41; x41]
      (f64_div (float64_of_int 1) (float64_of_int 1)) = Some (pop', pool) /\
    pool = flat_map (fun d => repeat d (Z.to_nat (code_copies (Text.Fitness d)
             (f64_div (float64_of_int 1) (float64_of_int 1))))) pop'.
Proof.
  destruct (createPool_float_copies [Text.mkDNA [x41; x42] f64_zero] [x41; x41]
              (f64_div (float64_of_int 1) (float64_of_int 1))
              ltac:(vm_compute; reflexivity) ltac:(repeat constructor))
    as (pop' & pool & H1 & _ & H3 & _).
  exists pop', pool. split; assumption.
Defined.

(** ** Binary64 rounding in the normal range *)

Lemma digits2_pos_log2 p : Zpos (digits2_pos p) = Z.log2 (Zpos p) + 1.
Proof.
  assert (H : forall p, digits2_pos p = Pos.size p) by (induction p0; simpl; congruence).
  rewrite H. destruct p; simpl; try reflexivity; rewrite Pos.add_1_r; reflexivity.
Qed.

Lemma Zdigits2_pow q n : 0 <= n -> 2 ^ n <= q < 2 ^ (n + 1) -> Zdigits2 q = n + 1.
Proof.
  intros Hn Hq. destruct q as [|p|p].
  - pose proof (Z.pow_pos_nonneg 2 n). lia.
  - simpl. rewrite digits2_pos_log2. rewrite (Z.log2_unique (Zpos p) n); lia.
  - pose proof (Z.pow_pos_nonneg 2 n). lia.
Qed.

Lemma loc_of_shr_record_of_loc m l : loc_of_shr_record (shr_record_of_loc m l) = l.
Proof. destruct l as [|[]]; reflexivity. Qed.

Lemma shr_m_of_loc m l : shr_m (shr_record_of_loc m l) = m.
Proof. destruct l as [|[]]; reflexivity. Qed.

Lemma rne_bounds q l : q <= round_nearest_even q l <= q + 1.
Proof. destruct l as [|[]]; simpl; try lia. destruct (Z.even q); lia. Qed.

Lemma round_tail M e :
  2 ^ 52 <= M <= 2 ^ 53 -> -1074 <= e <= 969 ->
  (let '(mrs'', e'') := shr_fexp 53 1024 M e loc_Exact in
   match shr_m mrs'' with
   | Z0 => S754_zero false
   | Zpos m => if e'' <=? 1024 - 53 then S754_finite false m e'' else S754_infinity false
   | _ => S754_nan
   end) = round_finish M e.
Proof.
  intros HM He. unfold shr_fexp, round_finish.
  destruct (Z.eqb_spec M (2 ^ 53)) as [E|E].
  - subst M. rewrite (Zdigits2_pow _ 53) by lia.
    unfold fexp, emin. replace (Z.max (53 + 1 + e - 53) (3 - 1024 - 53) - e) with 1 by lia.
    simpl. replace (e + 1 <=? 971) with true by lia. reflexivity.
  - rewrite (Zdigits2_pow _ 52) by lia.
    unfold fexp, emin. replace (Z.max (52 + 1 + e - 53) (3 - 1024 - 53) - e) with 0 by lia.
    simpl. destruct M as [|m|m]; try lia. simpl.
    replace (e <=? 971) with true by lia. reflexivity.
Qed.

Lemma shr_fexp_53 q e l :
  2 ^ 52 <= q < 2 ^ 53 -> -1074 <= e ->
  shr_fexp 53 1024 q e l = (shr_record_of_loc q l, e).
Proof.
  intros Hq He. unfold shr_fexp. rewrite (Zdigits2_pow _ 52) by lia.
  unfold fexp, emin. replace (Z.max (52 + 1 + e - 53) (3 - 1024 - 53) - e) with 0 by lia.
  reflexivity.
Qed.

Lemma shr_fexp_54 q e l :
  2 ^ 53 <= q < 2 ^ 54 -> -1074 <= e ->
  shr_fexp 53 1024 q e l = (shr_1 (shr_record_of_loc q l), e + 1).
Proof.
  intros Hq He. unfold shr_fexp. rewrite (Zdigits2_pow _ 53) by lia.
  unfold fexp, emin. replace (Z.max (53 + 1 + e - 53) (3 - 1024 - 53) - e) with 1 by lia.
  reflexivity.
Qed.

Lemma round_aux_53 q e l :
  2 ^ 52 <= q < 2 ^ 53 -> -1074 <= e <= 969 ->
  binary_round_aux 53 1024 false q e l = round_finish (round_nearest_even q l) e.
Proof.
  intros Hq He. unfold binary_round_aux. rewrite shr_fexp_53 by lia.
  rewrite shr_m_of_loc, loc_of_shr_record_of_loc.
  apply round_tail; [pose proof (rne_bounds q l) |]; lia.
Qed.

Lemma shr_1_m q l : 0 <= q -> shr_m (shr_1 (shr_record_of_loc q l)) = q / 2.
Proof.
  intros Hq.
  assert (E : forall q r s, 0 <= q -> shr_m (shr_1 (Build_shr_record q r s)) = q / 2).
  { clear. intros q r s Hq. destruct q as [|p|p]; [reflexivity| |lia].
    destruct p as [p|p|]; simpl; [| |reflexivity].
    - rewrite Pos2Z.inj_xI. apply Z.div_unique_pos with 1; lia.
    - rewrite Pos2Z.inj_xO. apply Z.div_unique_pos with 0; lia. }
  destruct l as [|[]]; apply E; exact Hq.
Qed.

Lemma round_aux_54 q e l :
  2 ^ 53 <= q < 2 ^ 54 -> -1074 <= e <= 968 ->
  binary_round_aux 53 1024 false q e l =
  let r := shr_1 (shr_record_of_loc q l) in
  round_finish (round_nearest_even (shr_m r) (loc_of_shr_record r)) (e + 1).
Proof.
  intros Hq He. unfold binary_round_aux. rewrite shr_fexp_54 by lia.
  cbv zeta. apply round_tail; [| lia].
  pose proof (rne_bounds (shr_m (shr_1 (shr_record_of_loc q l)))
                         (loc_of_shr_record (shr_1 (shr_record_of_loc q l)))).
  rewrite shr_1_m in * by lia.
  assert (2 ^ 52 <= q / 2 < 2 ^ 53).
  { split; [apply Z.div_le_lower_bound | apply Z.div_lt_upper_bound]; lia. }
  lia.
Qed.

Lemma iter_xO_pow p k : Zpos (Pos.iter xO p k) = Zpos p * 2 ^ Zpos k.
Proof.
  induction k as [|k IH] using Pos.peano_ind.
  - simpl. lia.
  - rewrite Pos.iter_succ, Pos2Z.inj_xO, IH, Pos2Z.inj_succ, Z.pow_succ_r by lia. lia.
Qed.

Lemma log2_bounds z : 0 < z -> 2 ^ Z.log2 z <= z < 2 ^ (Z.log2 z + 1) /\ 0 <= Z.log2 z.
Proof.
  intros Hz. pose proof (Z.log2_spec z Hz). pose proof (Z.log2_nonneg z).
  rewrite <- Z.add_1_r in H. lia.
Qed.

Lemma mantissa_bounds z L :
  0 <= L <= 52 -> 2 ^ L <= z < 2 ^ (L + 1) ->
  2 ^ 52 <= z * 2 ^ (52 - L) < 2 ^ 53.
Proof.
  intros HL Hz.
  assert (E1 : 2 ^ 52 = 2 ^ L * 2 ^ (52 - L)) by (rewrite <- Z.pow_add_r; f_equal; lia).
  assert (E2 : 2 ^ 53 = 2 ^ (L + 1) * 2 ^ (52 - L)) by (rewrite <- Z.pow_add_r; f_equal; lia).
  assert (P : 0 < 2 ^ (52 - L)) by (apply Z.pow_pos_nonneg; lia).
  rewrite E1, E2. nia.
Qed.

(** [float64(z)] is exact below [2^53]: the mantissa is [z] shifted to 53
    binary digits. *)
Lemma float64_of_int_exact z :
  0 < z < 2 ^ 53 ->
  float64_of_int z = S754_finite false (Z.to_pos (z * 2 ^ (52 - Z.log2 z))) (Z.log2 z - 52).
Proof.
  intros Hz. destruct z as [|p|p]; try lia.
  destruct (log2_bounds (Zpos p)) as [[Hlo Hhi] HL0]; [lia|].
  set (L := Z.log2 (Zpos p)) in *.
  assert (HL : L <= 52).
  { destruct (Z.le_gt_cases L 52) as [|G]; [assumption|].
    assert (2 ^ 53 <= 2 ^ L) by (apply Z.pow_le_mono_r; lia). lia. }
  pose proof (mantissa_bounds (Zpos p) L (conj HL0 HL) (conj Hlo Hhi)) as HM.
  unfold float64_of_int, binary_normalize, binary_round.
  rewrite digits2_pos_log2. fold L.
  replace (fexp 53 1024 (L + 1 + 0)) with (L - 52) by (unfold fexp, emin; lia).
  unfold shl_align. replace (L - 52 - 0) with (L - 52) by lia.
  destruct (L - 52) as [|k|k] eqn:E.
  - replace L with 52 in * by lia. simpl Z.sub in HM |- *.
    rewrite Z.mul_1_r in HM |- *.
    rewrite round_aux_53 by lia. unfold round_finish. simpl round_nearest_even.
    destruct (Z.eqb_spec (Zpos p) (2 ^ 53)); [lia|]. reflexivity.
  - lia.
  - replace (52 - L) with (Zpos k) in HM |- * by lia.
    rewrite round_aux_53 by (rewrite ?iter_xO_pow; lia).
    unfold round_finish. simpl round_nearest_even. rewrite iter_xO_pow.
    destruct (Z.eqb_spec (Zpos p * 2 ^ Zpos k) (2 ^ 53)); [lia|]. reflexivity.
Qed.
Lemma isqrt_scaled S P q r :
  0 <= S -> S < 2 ^ 52 -> 2 ^ 26 <= P -> S * P * P = q * q + r -> 0 <= r <= 2 * q -> 0 <= q ->
  (if r <=? q then q else q + 1) / P = Z.sqrt S.
Proof.
  intros HS0 HS HP Hm Hr Hq.
  pose proof (Z.sqrt_spec S HS0) as [Hk1 Hk2].
  set (k := Z.sqrt S) in *.
  assert (Hk0 : 0 <= k) by (apply Z.sqrt_nonneg).
  assert (HkP : k + 1 <= P).
  { assert (k < 2 ^ 26); [|lia].
    destruct (Z.lt_ge_cases k (2 ^ 26)) as [|G]; [assumption|].
    assert (2 ^ 26 * 2 ^ 26 <= k * k) by (apply Z.mul_le_mono_nonneg; lia). lia. }
  assert (Hq1 : k * P <= q).
  { destruct (Z.le_gt_cases (k * P) q) as [|G]; [assumption|].
    assert ((q + 1) * (q + 1) <= (k * P) * (k * P)) by (apply Z.mul_le_mono_nonneg; lia).
    assert (k * k * (P * P) <= S * (P * P)) by (apply Z.mul_le_mono_nonneg_r; nia).
    nia. }
  assert (Hq2 : q < (k + 1) * P).
  { destruct (Z.lt_ge_cases q ((k + 1) * P)) as [|G]; [assumption|].
    assert (((k + 1) * P) * ((k + 1) * P) <= q * q) by (apply Z.mul_le_mono_nonneg; nia).
    assert (S * (P * P) < (k + 1) * (k + 1) * (P * P)) by (apply Z.mul_lt_mono_pos_r; nia).
    nia. }
  destruct (Z.leb_spec r q).
  - symmetry. apply Z.div_unique_pos with (q - k * P); lia.
  - assert (Hq3 : q + 1 < (k + 1) * P).
    { destruct (Z.lt_ge_cases (q + 1) ((k + 1) * P)) as [|G]; [assumption|].
      assert (Eq : q = (k + 1) * P - 1) by lia.
      assert (S <= (k + 1) * (k + 1) - 1) by lia.
      assert (S * (P * P) <= ((k + 1) * (k + 1) - 1) * (P * P)) by (apply Z.mul_le_mono_nonneg_r; nia).
      subst q. nia. }
    symmetry. apply Z.div_unique_pos with (q + 1 - k * P); lia.
Qed.

Lemma sqrt_core_53 m e :
  2 ^ 52 <= m < 2 ^ 53 -> -1074 <= e ->
  SFsqrt_core_binary 53 1024 m e =
  let e' := e / 2 - 26 in
  let m' := m * 2 ^ (e - 2 * e') in
  let (q, r) := Z.sqrtrem m' in
  (q, e', if r =? 0 then loc_Exact else loc_Inexact (if r <=? q then Lt else Gt)).
Proof.
  intros Hm He. unfold SFsqrt_core_binary.
  rewrite (Zdigits2_pow m 52) by lia.
  rewrite !Z.div2_div.
  assert (E1 : (52 + 1 + e + 1) / 2 = 27 + e / 2).
  { replace (52 + 1 + e + 1) with (27 * 2 + e) by lia. apply Z.div_add_l. lia. }
  rewrite E1. pose proof (Z.div_mod e 2 ltac:(lia)). pose proof (Z.mod_pos_bound e 2 ltac:(lia)).
  replace (Z.min (fexp 53 1024 (27 + e / 2)) (e / 2)) with (e / 2 - 26)
    by (unfold fexp, emin; lia).
  cbv zeta.
  destruct (e - 2 * (e / 2 - 26)) as [|s|s] eqn:Es; try lia.
  rewrite Z.shiftl_mul_pow2 by lia. reflexivity.
Qed.

Lemma rne_sqrt q r :
  0 <= q -> 0 <= r ->
  round_nearest_even q (if r =? 0 then loc_Exact else loc_Inexact (if r <=? q then Lt else Gt))
  = if r <=? q then q else q + 1.
Proof.
  intros Hq Hr. destruct (Z.eqb_spec r 0); destruct (Z.leb_spec r q); simpl; lia.
Qed.

Lemma int64_round_finish M e :
  2 ^ 52 <= M <= 2 ^ 53 -> -63 < e < 0 ->
  int64_of_float (round_finish M e) = M / 2 ^ (- e).
Proof.
  intros HM He. unfold round_finish, int64_of_float.
  destruct (Z.eqb_spec M (2 ^ 53)) as [E|E].
  - subst M. destruct (Z.eqb_spec e (-1)) as [E1|E1].
    + subst e. reflexivity.
    + replace (0 <=? e + 1) with false by lia.
      rewrite Z.shiftr_div_pow2 by lia.
      replace (- (e + 1)) with (- e - 1) by lia.
      assert (D : 2 ^ 53 / 2 ^ (- e) = 4503599627370496 / 2 ^ (- e - 1)).
      { replace (2 ^ 53) with (4503599627370496 * 2) by reflexivity.
        assert (P : 2 ^ (- e) = 2 * 2 ^ (- e - 1))
          by (rewrite <- Z.pow_succ_r by lia; f_equal; lia).
        rewrite P, (Z.mul_comm 4503599627370496 2).
        rewrite Z.div_mul_cancel_l by (try apply Z.pow_nonzero; lia). reflexivity. }
      rewrite D.
      assert (0 <= 4503599627370496 / 2 ^ (- e - 1) <= 4503599627370496).
      { split; [apply Z.div_pos | apply Z.div_le_upper_bound];
        pose proof (Z.pow_pos_nonneg 2 (- e - 1)); try nia; lia. }
      unfold int64_min. rewrite andb_true_intro; [reflexivity|]. lia.
  - replace (0 <=? e) with false by lia.
    rewrite Z2Pos.id by lia. rewrite Z.shiftr_div_pow2 by lia.
    assert (0 <= M / 2 ^ (- e) <= M).
    { split; [apply Z.div_pos | apply Z.div_le_upper_bound];
      pose proof (Z.pow_pos_nonneg 2 (- e)); try nia; lia. }
    unfold int64_min. rewrite andb_true_intro; [reflexivity|]. lia.
Qed.

(** [int64(math.Sqrt(float64(S)))] is the integer square root of [S] when
    [S < 2^52]. *)
Lemma sqrt_of_int_exact S :
  0 <= S < 2 ^ 52 -> int64_of_float (f64_sqrt (float64_of_int S)) = Z.sqrt S.
Proof.
  intros HS. destruct (Z.eq_dec S 0) as [->|HS0]; [reflexivity|].
  rewrite float64_of_int_exact by lia.
  destruct (log2_bounds S) as [[Hlo Hhi] HL0]; [lia|].
  set (L := Z.log2 S) in *.
  assert (HL : L <= 51).
  { destruct (Z.le_gt_cases L 51) as [|G]; [assumption|].
    assert (2 ^ 52 <= 2 ^ L) by (apply Z.pow_le_mono_r; lia). lia. }
  pose proof (mantissa_bounds S L ltac:(lia) (conj Hlo Hhi)) as HM.
  set (m := S * 2 ^ (52 - L)) in *.
  unfold f64_sqrt, SFsqrt. rewrite Z2Pos.id by lia.
  rewrite sqrt_core_53 by lia. cbv zeta.
  pose proof (Z.div_mod (L - 52) 2 ltac:(lia)). pose proof (Z.mod_pos_bound (L - 52) 2 ltac:(lia)).
  set (h := (L - 52) / 2) in *.
  set (t := - (h - 26)).
  assert (Ht : 27 <= t <= 52) by lia.
  assert (Em : m * 2 ^ (L - 52 - 2 * (h - 26)) = S * (2 ^ t * 2 ^ t)).
  { unfold m. rewrite <- Z.mul_assoc, <- !Z.pow_add_r by lia. f_equal. f_equal. lia. }
  assert (HP : 2 ^ 27 <= 2 ^ t) by (apply Z.pow_le_mono_r; lia).
  assert (Hm' : 2 ^ 104 <= S * (2 ^ t * 2 ^ t) < 2 ^ 106).
  { rewrite <- Em.
    assert (2 ^ 52 <= 2 ^ (L - 52 - 2 * (h - 26)) <= 2 ^ 53) by (split; apply Z.pow_le_mono_r; lia).
    replace (2 ^ 104) with (2 ^ 52 * 2 ^ 52) by reflexivity.
    replace (2 ^ 106) with (2 ^ 53 * 2 ^ 53) by reflexivity.
    split; nia. }
  rewrite Em.
  pose proof (Z.sqrtrem_spec (S * (2 ^ t * 2 ^ t)) ltac:(lia)) as Hspec.
  pose proof (Z.sqrtrem_sqrt (S * (2 ^ t * 2 ^ t))) as Hfst.
  destruct (Z.sqrtrem (S * (2 ^ t * 2 ^ t))) as [q r]. simpl in Hfst.
  destruct Hspec as [Hqr Hr].
  pose proof (Z.sqrt_nonneg (S * (2 ^ t * 2 ^ t))). rewrite <- Hfst in *.
  assert (Hq : 2 ^ 52 <= q < 2 ^ 53).
  { replace (2 ^ 104) with (2 ^ 52 * 2 ^ 52) in Hm' by reflexivity.
    replace (2 ^ 106) with (2 ^ 53 * 2 ^ 53) in Hm' by reflexivity.
    split; nia. }
  rewrite round_aux_53 by lia. rewrite rne_sqrt by lia.
  rewrite int64_round_finish by (destruct (r <=? q); lia).
  replace (- (h - 26)) with t by reflexivity.
  apply isqrt_scaled with (r := r); lia.
Qed.

(** ** The pixel distance as an integer square root *)

Lemma sq_sum_app a1 a2 b1 b2 :
  length a1 = length b1 -> sq_sum (a1 ++ a2) (b1 ++ b2) = sq_sum a1 b1 + sq_sum a2 b2.
Proof.
  revert b1; induction a1 as [|x a1 IH]; intros [|y b1] Hl; try discriminate.
  - rewrite sq_sum_nil_l. reflexivity.
  - simpl app. rewrite !sq_sum_cons, IH by (simpl in Hl; lia). lia.
Qed.

Lemma sq_sum_repeat x y n :
  sq_sum (repeat x n) (repeat y n) = Z.of_nat n * (u8 x - u8 y) ^ 2.
Proof.
  induction n as [|n IH]; [reflexivity|].
  cbn [repeat]. rewrite sq_sum_cons, IH, Nat2Z.inj_succ. lia.
Qed.

Lemma far_pix_length : length far_pix_a = length far_pix_b.
Proof. unfold far_pix_a, far_pix_b. rewrite !length_app, !repeat_length. reflexivity. Qed.

Lemma far_pix_sum : sq_sum far_pix_a far_pix_b = 2 ^ 52 + 2 ^ 27.
Proof.
  unfold far_pix_a, far_pix_b. rewrite sq_sum_app by (rewrite !repeat_length; reflexivity).
  rewrite sq_sum_repeat, Z2Nat.id by lia. vm_compute. reflexivity.
Qed.

(** C4 (counterexample): two pixel buffers of equal length (a row of
    17314877977 pixels) whose squared byte differences sum to
    [S = 2^52 + 2^27]: [diff] returns [67108865 = 2^26 + 1], while the
    integer square root of [S] is [67108864 = 2^26]; [float64(S)] is exact
    but [math.Sqrt] rounds [sqrt S = 2^26 + 1 - 2^-27 - ...] up to [2^26 + 1]. *)
Lemma diff_isqrt_counterexample :
  let a := row_image far_pix_a 17314877977 in
  let b := row_image far_pix_b 17314877977 in
  length (Pix a) = length (Pix b) /\
  diff a b = Some 67108865 /\ Z.sqrt (sq_sum (Pix a) (Pix b)) = 67108864.
Proof.
  intros a b. unfold a, b, row_image. cbn [Pix].
  split; [exact far_pix_length|].
  rewrite far_pix_sum. split; [|vm_compute; reflexivity].
  unfold diff. cbn [Pix].
  rewrite diff_loop_sum by (try rewrite far_pix_sum; try exact far_pix_length; lia).
  rewrite far_pix_sum. vm_compute. reflexivity.
Qed.

(** C4 (amended): for pixel buffers of equal length whose sum [S] of
    squared byte differences is below [2^52], [diff] returns the integer
    square root of [S]; [squareDifference x y] is [|x - y|^2] for all
    [uint8] values despite the wrapping [uint64] subtraction; and
    [diff a a = 0]. *)
Theorem diff_isqrt_below_2_52 (a b : RGBA) :
  length (Pix a) = length (Pix b) -> sq_sum (Pix a) (Pix b) < 2 ^ 52 ->
  diff a b = Some (Z.sqrt (sq_sum (Pix a) (Pix b))) /\
  (forall x y : byte, squareDifference x y = (Z.abs (u8 x - u8 y)) ^ 2) /\
  diff a a = Some 0.
Proof.
  intros Hl Hs. pose proof (sq_sum_nonneg (Pix a) (Pix b)).
  split; [|split].
  - unfold diff. rewrite diff_loop_sum by lia. rewrite Z.add_0_l.
    f_equal. apply sqrt_of_int_exact. lia.
  - intros x y. rewrite squareDifference_exact, !Z.pow_2_r.
    destruct (Z.abs_spec (u8 x - u8 y)) as [[_ ->]|[_ ->]]; lia.
  - apply diff_same. reflexivity.
Qed.

Lemma diff_isqrt_below_2_52_witness :
  let a := image4x4 (repeat x80 64) in
  let b := image4x4 (repeat x00 64) in
  (length (Pix a) = length (Pix b) /\ sq_sum (Pix a) (Pix b) < 2 ^ 52) /\
  (diff a b = Some (Z.sqrt (sq_sum (Pix a) (Pix b))) /\
   (forall x y : byte, squareDifference x y = (Z.abs (u8 x - u8 y)) ^ 2) /\
   diff a a = Some 0).
Proof.
  intros a b.
  assert (H : length (Pix a) = length (Pix b) /\ sq_sum (Pix a) (Pix b) < 2 ^ 52)
    by (split; vm_compute; reflexivity).
  split; [exact H|].
  apply (diff_isqrt_below_2_52 a b); [exact (proj1 H) | exact (proj2 H)].
Defined.

(** ** The match-count fitness of the string variant *)

Lemma score_loop_matches g t s :
  (length g <= length t)%nat -> Text.score_loop g t s = Some (s + matches g t).
Proof.
  revert t s; induction g as [|x g IH]; intros [|y t] s H; simpl in H.
  - unfold matches. simpl. f_equal. lia.
  - unfold matches. simpl. f_equal. lia.
  - lia.
  - cbn [Text.score_loop]. rewrite IH by lia. f_equal.
    unfold matches. cbn [combine filter fst snd].
    destruct (Byte.eqb x y); cbn [length]; lia.
Qed.

Lemma matches_le g t : 0 <= matches g t <= Z.of_nat (length g).
Proof.
  unfold matches. split; [lia|]. apply Nat2Z.inj_le.
  etransitivity; [apply filter_length_le|]. rewrite length_combine. lia.
Qed.

Lemma matches_self t : matches t t = Z.of_nat (length t).
Proof.
  unfold matches. induction t as [|x t IH]; [reflexivity|].
  cbn [combine filter fst snd]. rewrite (Byte.byte_dec_lb (eq_refl x)). cbn [length].
  rewrite !Nat2Z.inj_succ. lia.
Qed.

Lemma div_core_53 ms es mn en :
  2 ^ 52 <= ms < 2 ^ 53 -> 2 ^ 52 <= mn < 2 ^ 53 -> -1000 <= es - en <= 1000 ->
  SFdiv_core_binary 53 1024 ms es mn en =
  (ms * 2 ^ 53 / mn, es - en - 53, new_location mn ((ms * 2 ^ 53) mod mn)).
Proof.
  intros Hs Hn He. unfold SFdiv_core_binary.
  rewrite (Zdigits2_pow ms 52), (Zdigits2_pow mn 52) by lia.
  replace (Z.min (fexp 53 1024 (52 + 1 + es - (52 + 1 + en))) (es - en)) with (es - en - 53)
    by (unfold fexp, emin; lia).
  replace (es - en - (es - en - 53)) with 53 by lia.
  rewrite Z.shiftl_mul_pow2 by lia.
  unfold Z.div, Z.modulo. destruct (Z.div_eucl (ms * 2 ^ 53) mn). reflexivity.
Qed.

Lemma new_location_exact n : new_location n 0 = loc_Exact.
Proof. unfold new_location. destruct (Z.even n); reflexivity. Qed.

Lemma round_finish_le_one M e :
  2 ^ 52 <= M <= 2 ^ 53 -> e <= -53 -> SFleb (round_finish M e) f64_one = true.
Proof.
  intros HM He. unfold round_finish, f64_one, SFleb, SFcompare.
  destruct (Z.eqb_spec M (2 ^ 53)).
  - destruct (Z.compare_spec (e + 1) (-52)); first [lia | reflexivity].
  - destruct (Z.compare_spec e (-52)); first [lia | reflexivity].
Qed.

Lemma round_finish_pos M e : SFleb f64_zero (round_finish M e) = true.
Proof. unfold round_finish. destruct (M =? 2 ^ 53); reflexivity. Qed.

(** [float64(n) / float64(n) = 1.0] for [0 < n < 2^53]. *)
Lemma div_self n : 0 < n < 2 ^ 53 -> f64_div (float64_of_int n) (float64_of_int n) = f64_one.
Proof.
  intros Hn. rewrite float64_of_int_exact by lia.
  destruct (log2_bounds n) as [[Hlo Hhi] HL0]; [lia|].
  set (L := Z.log2 n) in *.
  assert (HL : L <= 52).
  { destruct (Z.le_gt_cases L 52) as [|G]; [assumption|].
    assert (2 ^ 53 <= 2 ^ L) by (apply Z.pow_le_mono_r; lia). lia. }
  pose proof (mantissa_bounds n L ltac:(lia) (conj Hlo Hhi)) as HM.
  set (m := n * 2 ^ (52 - L)) in *.
  unfold f64_div, SFdiv. rewrite !Z2Pos.id by lia.
  rewrite div_core_53 by lia.
  rewrite (Z.mul_comm m (2 ^ 53)), Z.div_mul, Z.mod_mul by lia. rewrite new_location_exact.
  replace (L - 52 - (L - 52) - 53) with (-53) by lia.
  cbn [xorb]. rewrite round_aux_54 by lia. vm_compute. reflexivity.
Qed.

(** [float64(s) / float64(n)] lies in [[0.0, 1.0]] for [0 <= s <= n < 2^53], [n > 0]. *)
Lemma div_unit_range s n :
  0 <= s <= n -> 0 < n < 2 ^ 53 ->
  SFleb f64_zero (f64_div (float64_of_int s) (float64_of_int n)) = true /\
  SFleb (f64_div (float64_of_int s) (float64_of_int n)) f64_one = true.
Proof.
  intros Hs Hn. destruct (Z.eq_dec s n) as [->|Hne].
  { rewrite div_self by lia. split; reflexivity. }
  destruct (Z.eq_dec s 0) as [->|Hs0].
  { rewrite (float64_of_int_exact n) by lia. split; reflexivity. }
  destruct (log2_bounds s) as [[Hslo Hshi] HLs0]; [lia|].
  destruct (log2_bounds n) as [[Hnlo Hnhi] HLn0]; [lia|].
  assert (HLe : Z.log2 s <= Z.log2 n) by (apply Z.log2_le_mono; lia).
  assert (HLn : Z.log2 n <= 52).
  { destruct (Z.le_gt_cases (Z.log2 n) 52) as [|G]; [assumption|].
    assert (2 ^ 53 <= 2 ^ Z.log2 n) by (apply Z.pow_le_mono_r; lia). lia. }
  pose proof (mantissa_bounds s (Z.log2 s) ltac:(lia) (conj Hslo Hshi)) as HMs.
  pose proof (mantissa_bounds n (Z.log2 n) ltac:(lia) (conj Hnlo Hnhi)) as HMn.
  rewrite !float64_of_int_exact by lia.
  set (Ls := Z.log2 s) in *. set (Ln := Z.log2 n) in *.
  set (ms := s * 2 ^ (52 - Ls)) in *. set (mn := n * 2 ^ (52 - Ln)) in *.
  unfold f64_div, SFdiv. rewrite !Z2Pos.id by lia.
  rewrite div_core_53 by lia. cbn [xorb].
  set (q := ms * 2 ^ 53 / mn).
  assert (Hq1 : 2 ^ 52 <= q) by (apply Z.div_le_lower_bound; lia).
  assert (Hq2 : q < 2 ^ 54) by (apply Z.div_lt_upper_bound; lia).
  assert (Hlt : Ls = Ln -> q < 2 ^ 53).
  { intros E. apply Z.div_lt_upper_bound; [lia|].
    assert (ms < mn); [|nia].
    unfold ms, mn. rewrite E. apply Z.mul_lt_mono_pos_r; [apply Z.pow_pos_nonneg|]; lia. }
  set (l := new_location mn (ms * 2 ^ 53 mod mn)).
  destruct (Z.lt_ge_cases q (2 ^ 53)) as [Q|Q].
  - rewrite round_aux_53 by lia. pose proof (rne_bounds q l).
    split; [apply round_finish_pos | apply round_finish_le_one; lia].
  - assert (Ls < Ln) by (destruct (Z.eq_dec Ls Ln); [specialize (Hlt e); lia | lia]).
    rewrite round_aux_54 by lia. cbv zeta.
    pose proof (rne_bounds (shr_m (shr_1 (shr_record_of_loc q l)))
                           (loc_of_shr_record (shr_1 (shr_record_of_loc q l)))).
    rewrite shr_1_m in * by lia.
    assert (2 ^ 52 <= q / 2 < 2 ^ 53).
    { split; [apply Z.div_le_lower_bound | apply Z.div_lt_upper_bound]; lia. }
    split; [apply round_finish_pos | apply round_finish_le_one; lia].
Qed.

(** C5 (counterexample): an empty genome against an empty target (equal
    lengths) gets [Fitness = 0.0 / 0.0 = NaN]: it is not in [[0.0, 1.0]]
    (both comparisons are false) and [fitness(target, target)] is not
    [1.0]. *)
Lemma text_calcFitness_empty_counterexample :
  Text.calcFitness (Text.mkDNA [] f64_zero) [] = Some (Text.mkDNA [] S754_nan) /\
  SFleb f64_zero S754_nan = false /\ SFleb S754_nan f64_one = false /\
  S754_nan <> f64_one.
Proof. split; [vm_compute; reflexivity|]. repeat split; discriminate. Qed.

(** C5 (amended): for a genome and a target of equal length [n] with
    [0 < n < 2^53] (both [float64] conversions exact), [calcFitness] sets
    [Fitness] to [float64(m) / float64(n)], where [m] is the number of
    positions where the genome byte equals the target byte; this value
    lies in [[0.0, 1.0]]; and the target scored against itself gets
    exactly [1.0]. *)
Theorem text_calcFitness_match_ratio (g target : list byte) (f : float64) :
  length g = length target -> (0 < length g)%nat -> Z.of_nat (length g) < 2 ^ 53 ->
  let fit := f64_div (float64_of_int (matches g target)) (float64_of_int (Z.of_nat (length g))) in
  Text.calcFitness (Text.mkDNA g f) target = Some (Text.mkDNA g fit) /\
  SFleb f64_zero fit = true /\ SFleb fit f64_one = true /\
  Text.calcFitness (Text.mkDNA target f) target = Some (Text.mkDNA target f64_one).
Proof.
  intros Hl Hpos Hbig fit.
  pose proof (matches_le g target) as Hm.
  split; [|split; [|split]].
  - unfold Text.calcFitness. cbn [Text.Gene].
    rewrite score_loop_matches by lia. reflexivity.
  - apply (div_unit_range (matches g target) (Z.of_nat (length g))); lia.
  - apply (div_unit_range (matches g target) (Z.of_nat (length g))); lia.
  - unfold Text.calcFitness. cbn [Text.Gene].
    rewrite score_loop_matches by lia. rewrite Z.add_0_l, matches_self.
    rewrite div_self by lia. reflexivity.
Qed.

Lemma text_calcFitness_match_ratio_witness :
  (length [x41; x42] = length [x41; x41] /\ (0 < length [x41; x42])%nat /\
   Z.of_nat (length [x41; x42]) < 2 ^ 53) /\
  (let fit := f64_div (float64_of_int (matches [x41; x42] [x41; x41]))
                      (float64_of_int (Z.of_nat (length [x41; x42]))) in
   Text.calcFitness (Text.mkDNA [x41; x42] f64_zero) [x41; x41] = Some (Text.mkDNA [x41; x42] fit) /\
   SFleb f64_zero fit = true /\ SFleb fit f64_one = true /\
   Text.calcFitness (Text.mkDNA [x41; x41] f64_zero) [x41; x41] = Some (Text.mkDNA [x41; x41] f64_one)).
Proof.
  split; [split; [reflexivity | split; [simpl; lia | vm_compute; reflexivity]]|].
  apply (text_calcFitness_match_ratio [x41; x42] [x41; x41] f64_zero);
    [reflexivity | simpl; lia | vm_compute; reflexivity].
Defined.

(** * More of the programs *)

Lemma diff_loop_none a b d :
  diff_loop a b d = None <-> (length b < length a)%nat.
Proof.
  revert b d; induction a as [|x a IH]; intros [|y b] d; simpl.
  1-3: split; intros; first [reflexivity | discriminate | lia].
  rewrite IH. lia.
Qed.

(** X1: [diff(a, b)] panics (an index out of range on [b.Pix]) exactly when [b.Pix] is shorter than [a.Pix]. *)
Theorem diff_panics_iff a b :
  diff a b = None <-> (length (Pix b) < length (Pix a))%nat.
Proof.
  rewrite <- (diff_loop_none _ _ 0). unfold diff.
  destruct (diff_loop _ _ _); split; intros; congruence.
Qed.

Lemma squareDifference_sym x y : squareDifference x y = squareDifference y x.
Proof. rewrite !squareDifference_exact. ring. Qed.

Lemma diff_loop_sym a b d :
  length a = length b -> diff_loop a b d = diff_loop b a d.
Proof.
  revert b d; induction a as [|x a IH]; intros [|y b] d H; simpl in *; try discriminate; [reflexivity|].
  rewrite squareDifference_sym. apply IH. lia.
Qed.

(** X2: For pixel buffers of equal length, [diff] is symmetric: [diff(a, b) = diff(b, a)]. *)
Theorem diff_symmetric a b :
  length (Pix a) = length (Pix b) -> diff a b = diff b a.
Proof.
  intros H. unfold diff. rewrite diff_loop_sym by exact H. reflexivity.
Qed.

Lemma diff_symmetric_witness :
  diff (image4x4 [x01; x02]) (image4x4 [x05; x00]) = diff (image4x4 [x05; x00]) (image4x4 [x01; x02]).
Proof. apply diff_symmetric. reflexivity. Defined.

Lemma sq_sum_le a b : sq_sum a b <= 65025 * Z.of_nat (length a).
Proof.
  revert b; induction a as [|x a IH]; intros [|y b].
  - unfold sq_sum; simpl; lia.
  - unfold sq_sum; simpl; lia.
  - unfold sq_sum; simpl. pose proof (IH []). unfold sq_sum in H; simpl in H. lia.
  - rewrite sq_sum_cons. specialize (IH b).
    pose proof (u8_range x). pose proof (u8_range y).
    pose proof (sq_byte_bound (u8 x - u8 y) ltac:(lia)).
    rewrite Z.pow_2_r. simpl length. lia.
Qed.

Lemma u8_inj x y : u8 x = u8 y -> x = y.
Proof.
  unfold u8. intros H. apply N2Z.inj in H.
  pose proof (Byte.of_to_N x) as Hx. pose proof (Byte.of_to_N y) as Hy.
  rewrite H in Hx. congruence.
Qed.

Lemma sq_sum_zero a b :
  length a = length b -> sq_sum a b = 0 -> a = b.
Proof.
  revert b; induction a as [|x a IH]; intros [|y b] Hl H; simpl in Hl; try discriminate; [reflexivity|].
  rewrite sq_sum_cons in H. pose proof (sq_sum_nonneg a b).
  assert (Hs : (u8 x - u8 y) ^ 2 = 0).
  { assert (0 <= (u8 x - u8 y) ^ 2) by (rewrite Z.pow_2_r; apply Z.square_nonneg). lia. }
  rewrite Z.pow_2_r in Hs. apply Z.eq_mul_0 in Hs.
  assert (x = y) by (apply u8_inj; lia). subst y.
  f_equal. apply IH; lia.
Qed.

(** X3: For pixel buffers of equal length below 2^52/65025 bytes, [diff(a, b)] is 0 exactly when the two buffers are equal. *)
Theorem diff_zero_iff_equal a b :
  length (Pix a) = length (Pix b) -> Z.of_nat (length (Pix a)) * 65025 < 2 ^ 52 ->
  (diff a b = Some 0 <-> Pix a = Pix b).
Proof.
  intros Hl Hb. split; [|apply diff_same].
  pose proof (sq_sum_le (Pix a) (Pix b)). pose proof (sq_sum_nonneg (Pix a) (Pix b)).
  unfold diff. rewrite diff_loop_sum by lia. rewrite Z.add_0_l.
  rewrite sqrt_of_int_exact by lia. intros E. injection E as E.
  apply sq_sum_zero; [exact Hl|].
  pose proof (Z.sqrt_spec (sq_sum (Pix a) (Pix b)) ltac:(lia)) as Hsp.
  rewrite E in Hsp. simpl in Hsp. lia.
Qed.

Lemma diff_zero_iff_equal_witness :
  diff (image4x4 [x01; x02]) (image4x4 [x01; x03]) = Some 0 <-> [x01; x02] = [x01; x03].
Proof. apply (diff_zero_iff_equal (image4x4 [x01; x02]) (image4x4 [x01; x03])); simpl; [reflexivity | lia]. Defined.

Lemma diff_loop_prefix a b b' d :
  firstn (length a) b = firstn (length a) b' -> diff_loop a b d = diff_loop a b' d.
Proof.
  revert b b' d; induction a as [|x a IH]; intros [|y b] [|y' b'] d H; simpl in *;
    try discriminate; try reflexivity.
  injection H as -> H. apply IH. exact H.
Qed.

(** X4: [diff(a, b)] reads only the first [len(a.Pix)] bytes of [b.Pix]: two targets that agree there give the same result, panic included. *)
Theorem diff_reads_prefix a b b' :
  firstn (length (Pix a)) (Pix b) = firstn (length (Pix a)) (Pix b') -> diff a b = diff a b'.
Proof.
  intros H. unfold diff. rewrite (diff_loop_prefix _ _ _ _ H). reflexivity.
Qed.

Lemma diff_reads_prefix_witness :
  diff (image4x4 [x01]) (image4x4 [x03; x07]) = diff (image4x4 [x01]) (image4x4 [x03; x09]).
Proof. apply diff_reads_prefix. reflexivity. Defined.

Lemma u8_byte_of_int v : 0 <= v < 256 -> u8 (byte_of_int v) = v.
Proof.
  intros Hv. unfold byte_of_int. rewrite Z.mod_small by exact Hv.
  destruct (Byte.of_N (Z.to_N v)) as [b|] eqn:E.
  - apply Byte.to_of_N in E. unfold u8. rewrite E. lia.
  - exfalso. apply Byte.of_N_None_iff in E. lia.
Qed.

Lemma mutate_loop_forall2 {St} (rs : Rand St) rate k regen (Pb : byte -> Prop) g s :
  intn_ok rs -> 0 < k -> (forall v, 0 <= v < k -> Pb (regen v)) ->
  Forall2 (fun x y => y = x \/ Pb y) g (fst (mutate_loop rs rate k regen g s)).
Proof.
  intros Hi Hk Hr. revert s; induction g as [|x g IH]; intros s; simpl; [constructor|].
  destruct (Float64 rs s) as [r s1].
  destruct (f64_lt r rate).
  - destruct (Intn rs k s1) as [v s2] eqn:Ev.
    pose proof (Hi k s1 Hk) as Hv. rewrite Ev in Hv. simpl in Hv.
    specialize (IH s2). destruct (mutate_loop rs rate k regen g s2) as [g'' s3].
    constructor; [right; apply Hr; exact Hv | exact IH].
  - specialize (IH s1). destruct (mutate_loop rs rate k regen g s1) as [g'' s3].
    constructor; [left; reflexivity | exact IH].
Qed.

(** X5: [mutate] of [monalisa/main.go] keeps the stride, the bounds and the fitness, and every byte it changes is at most 254 ([uint8(rand.Intn(255))] never yields 255). *)
Theorem mutate_never_writes_255 {St} (rs : Rand St) MutationRate o s :
  intn_ok rs ->
  Stride (DNA (fst (mutate rs MutationRate o s))) = Stride (DNA o) /\
  Rect (DNA (fst (mutate rs MutationRate o s))) = Rect (DNA o) /\
  Fitness (fst (mutate rs MutationRate o s)) = Fitness o /\
  Forall2 (fun x y => y = x \/ u8 y <= 254) (Pix (DNA o)) (Pix (DNA (fst (mutate rs MutationRate o s)))).
Proof.
  intros Hi. unfold mutate.
  pose proof (mutate_loop_forall2 rs MutationRate 255 byte_of_int (fun y => u8 y <= 254) (Pix (DNA o)) s Hi
    ltac:(lia) ltac:(intros v Hv; simpl; rewrite u8_byte_of_int by lia; lia)) as H.
  destruct (mutate_loop _ _ _ _ _ _) as [pix s']. simpl in *. auto.
Qed.

Lemma mutate_never_writes_255_witness :
  Pix (DNA (fst (mutate sample_rand f64_one (mkOrganism (image4x4 [xff; x10]) 9) 0%nat))) = [xfe; xfe] /\
  Forall2 (fun x y => y = x \/ u8 y <= 254) [xff; x10]
    (Pix (DNA (fst (mutate sample_rand f64_one (mkOrganism (image4x4 [xff; x10]) 9) 0%nat)))).
Proof.
  split; [reflexivity|].
  destruct (mutate_never_writes_255 sample_rand f64_one (mkOrganism (image4x4 [xff; x10]) 9) 0%nat
              (fun n s Hn => ltac:(simpl; lia))) as (_ & _ & _ & H).
  exact H.
Defined.

(** X6: [mutate] of the string variant keeps the fitness and the gene length, and every byte it changes is printable ASCII in [32, 126]. *)
Theorem text_mutate_printable {St} (rs : Rand St) MutationRate d s :
  intn_ok rs ->
  Text.Fitness (fst (Text.mutate rs MutationRate d s)) = Text.Fitness d /\
  Forall2 (fun x y => y = x \/ 32 <= u8 y <= 126) (Text.Gene d) (Text.Gene (fst (Text.mutate rs MutationRate d s))).
Proof.
  intros Hi. unfold Text.mutate.
  pose proof (mutate_loop_forall2 rs MutationRate 95 (fun v => byte_of_int (v + 32))
    (fun y => 32 <= u8 y <= 126) (Text.Gene d) s Hi
    ltac:(lia) ltac:(intros v Hv; simpl; rewrite u8_byte_of_int by lia; lia)) as H.
  destruct (mutate_loop _ _ _ _ _ _) as [g s']. simpl in *. auto.
Qed.

Lemma text_mutate_printable_witness :
  Text.Gene (fst (Text.mutate sample_rand f64_one (Text.mkDNA [x41; x00] f64_zero) 0%nat)) = [x7e; x7e] /\
  Forall2 (fun x y => y = x \/ 32 <= u8 y <= 126) [x41; x00]
    (Text.Gene (fst (Text.mutate sample_rand f64_one (Text.mkDNA [x41; x00] f64_zero) 0%nat))).
Proof.
  split; [reflexivity|].
  destruct (text_mutate_printable sample_rand f64_one (Text.mkDNA [x41; x00] f64_zero) 0%nat
              (fun n s Hn => ltac:(simpl; lia))) as (_ & H).
  exact H.
Defined.

Lemma skipn_nth_error {A} (l : list A) i t :
  nth_error l i = Some t -> skipn i l = t :: skipn (S i) l.
Proof.
  revert i; induction l as [|x l IH]; intros [|i] H; simpl in *; try discriminate.
  - injection H as ->. reflexivity.
  - apply IH. exact H.
Qed.

Lemma pool_loop_concat {Org} (P : nat) num (top : list Org) last n i pool :
  nth_error top P = Some last -> (i + n <= length top)%nat ->
  pool_loop P num top n i pool =
    Some (pool ++ concat (map (fun t => repeat t (Z.to_nat (num last t))) (firstn n (skipn i top)))).
Proof.
  intros HP. revert i pool; induction n as [|n IH]; intros i pool Hn; simpl.
  - rewrite app_nil_r. reflexivity.
  - rewrite HP. destruct (nth_error top i) as [t|] eqn:Et.
    2: { apply nth_error_None in Et. lia. }
    rewrite IH by lia. rewrite (skipn_nth_error _ _ _ Et). simpl.
    rewrite app_assoc. reflexivity.
Qed.

Lemma firstn_In {A} n (l : list A) x : In x (firstn n l) -> In x l.
Proof.
  revert l; induction n as [|n IH]; intros [|y l] H; simpl in *; try contradiction.
  destruct H as [H|H]; [left; exact H | right; apply IH, H].
Qed.

(** X7: With fitness values in [0, 2^59) and [PoolSize < len(population)], the pool of [monalisa/main.go] is, in sorted order, [10 * (top[PoolSize].Fitness - top[i].Fitness)] copies of each of the first [PoolSize] sorted organisms, and nothing else. *)
Theorem createPool_copies P pop :
  (P < length pop)%nat -> (forall o, In o pop -> 0 <= Fitness o < 2 ^ 59) ->
  exists last, nth_error (sortSliceStable Fitness pop) P = Some last /\
    snd (Monalisa.createPool P pop) =
      Some (concat (map (fun t => repeat t (Z.to_nat (10 * (Fitness last - Fitness t))))
                        (firstn P (sortSliceStable Fitness pop)))).
Proof.
  intros HP Hf. set (sorted := sortSliceStable Fitness pop).
  assert (Hlen : length sorted = length pop) by apply sortSliceStable_length.
  assert (Hin : forall o, In o sorted -> 0 <= Fitness o < 2 ^ 59).
  { intros o Ho. apply Hf. eapply Permutation_in; [symmetry; apply sortSliceStable_perm | exact Ho]. }
  destruct (nth_error sorted P) as [last|] eqn:EP.
  2: { apply nth_error_None in EP. lia. }
  exists last. split; [reflexivity|].
  unfold Monalisa.createPool. fold sorted.
  rewrite slice_prefix by lia. cbn [snd].
  assert (Htop : nth_error (firstn (S P) sorted) P = Some last).
  { rewrite nth_error_firstn. replace (Nat.ltb P (S P)) with true by (symmetry; apply Nat.ltb_lt; lia). exact EP. }
  rewrite firstn_length_le by lia. rewrite Nat.sub_1_r. simpl Nat.pred.
  rewrite (pool_loop_concat _ _ _ last _ _ _ Htop) by (rewrite firstn_length_le; lia).
  rewrite app_nil_l. cbn [skipn]. rewrite firstn_firstn, Nat.min_l by lia. do 2 f_equal.
  apply map_ext_in. intros t Ht. f_equal. f_equal.
  pose proof (Hin t (firstn_In _ _ _ Ht)). pose proof (Hin last (nth_error_In _ _ EP)).
  unfold wrap64. rewrite (Z.mod_small (Fitness last - Fitness t + 2 ^ 63)) by lia.
  rewrite Z.mod_small by lia. lia.
Qed.

Lemma createPool_copies_witness :
  exists last,
    nth_error (sortSliceStable Fitness [mkOrganism (image4x4 []) 7; mkOrganism (image4x4 []) 3;
                                        mkOrganism (image4x4 []) 5]) 2 = Some last /\
    snd (Monalisa.createPool 2 [mkOrganism (image4x4 []) 7; mkOrganism (image4x4 []) 3;
                                mkOrganism (image4x4 []) 5]) =
      Some (concat (map (fun t => repeat t (Z.to_nat (10 * (Fitness last - Fitness t))))
        (firstn 2 (sortSliceStable Fitness [mkOrganism (image4x4 []) 7; mkOrganism (image4x4 []) 3;
                                           mkOrganism (image4x4 []) 5])))).
Proof.
  apply createPool_copies; [simpl; lia|].
  intros o Ho. simpl in Ho. destruct Ho as [<-|[<-|[<-|[]]]]; simpl; lia.
Defined.

(** X8: With fitness values in [0, 2^63) and [PoolSize < len(population)], the pool of the shape variants is the whole sorted population when [top[PoolSize]] and [top[0]] have the same fitness, and otherwise [top[PoolSize].Fitness - top[i].Fitness] copies of each of the first [PoolSize] sorted organisms. *)
Theorem shapes_createPool_copies {O} (fitness : O -> Z) P pop :
  (P < length pop)%nat -> (forall o, In o pop -> 0 <= fitness o < 2 ^ 63) ->
  exists first last,
    nth_error (sortSliceStable fitness pop) 0 = Some first /\
    nth_error (sortSliceStable fitness pop) P = Some last /\
    snd (Shapes.createPool fitness P pop) =
      if fitness last =? fitness first then Some (sortSliceStable fitness pop)
      else Some (concat (map (fun t => repeat t (Z.to_nat (fitness last - fitness t)))
                             (firstn P (sortSliceStable fitness pop)))).
Proof.
  intros HP Hf. set (sorted := sortSliceStable fitness pop).
  assert (Hlen : length sorted = length pop) by apply sortSliceStable_length.
  assert (Hin : forall o, In o sorted -> 0 <= fitness o < 2 ^ 63).
  { intros o Ho. apply Hf. eapply Permutation_in; [symmetry; apply sortSliceStable_perm | exact Ho]. }
  destruct (nth_error sorted P) as [last|] eqn:EP.
  2: { apply nth_error_None in EP. lia. }
  destruct (nth_error sorted 0) as [first|] eqn:E0.
  2: { apply nth_error_None in E0. lia. }
  exists first, last. split; [reflexivity|]. split; [reflexivity|].
  unfold Shapes.createPool. fold sorted.
  rewrite slice_prefix by lia.
  assert (Htop : nth_error (firstn (S P) sorted) P = Some last).
  { rewrite nth_error_firstn. replace (Nat.ltb P (S P)) with true by (symmetry; apply Nat.ltb_lt; lia). exact EP. }
  assert (Htop0 : nth_error (firstn (S P) sorted) 0 = Some first).
  { rewrite nth_error_firstn. replace (Nat.ltb 0 (S P)) with true by (symmetry; apply Nat.ltb_lt; lia). exact E0. }
  rewrite firstn_length_le by lia. rewrite Nat.sub_1_r. simpl Nat.pred.
  rewrite Htop, Htop0.
  pose proof (Hin first (nth_error_In _ _ E0)). pose proof (Hin last (nth_error_In _ _ EP)).
  assert (Hw : wrap64 (fitness last - fitness first) = fitness last - fitness first).
  { unfold wrap64. rewrite Z.mod_small by lia. lia. }
  rewrite Hw. destruct (fitness last =? fitness first) eqn:Eq.
  - apply Z.eqb_eq in Eq. replace (fitness last - fitness first =? 0) with true by (symmetry; apply Z.eqb_eq; lia).
    reflexivity.
  - apply Z.eqb_neq in Eq. replace (fitness last - fitness first =? 0) with false by (symmetry; apply Z.eqb_neq; lia).
    cbn [snd].
    rewrite (pool_loop_concat _ _ _ last _ _ _ Htop) by (rewrite firstn_length_le; lia).
    rewrite app_nil_l. cbn [skipn]. rewrite firstn_firstn, Nat.min_l by lia. do 2 f_equal.
    apply map_ext_in. intros t Ht. f_equal. f_equal.
    pose proof (Hin t (firstn_In _ _ _ Ht)).
    unfold wrap64. rewrite Z.mod_small by lia. lia.
Qed.

Lemma shapes_createPool_copies_witness :
  exists first last,
    nth_error (sortSliceStable Fitness [mkOrganism (image4x4 []) 7; mkOrganism (image4x4 []) 3;
                                        mkOrganism (image4x4 []) 5]) 0 = Some first /\
    nth_error (sortSliceStable Fitness [mkOrganism (image4x4 []) 7; mkOrganism (image4x4 []) 3;
                                        mkOrganism (image4x4 []) 5]) 2 = Some last /\
    snd (Shapes.createPool Fitness 2 [mkOrganism (image4x4 []) 7; mkOrganism (image4x4 []) 3;
                                      mkOrganism (image4x4 []) 5]) =
      if Fitness last =? Fitness first
      then Some (sortSliceStable Fitness [mkOrganism (image4x4 []) 7; mkOrganism (image4x4 []) 3;
                                         mkOrganism (image4x4 []) 5])
      else Some (concat (map (fun t => repeat t (Z.to_nat (Fitness last - Fitness t)))
        (firstn 2 (sortSliceStable Fitness [mkOrganism (image4x4 []) 7; mkOrganism (image4x4 []) 3;
                                           mkOrganism (image4x4 []) 5])))).
Proof.
  apply shapes_createPool_copies; [simpl; lia|].
  intros o Ho. simpl in Ho. destruct Ho as [<-|[<-|[<-|[]]]]; simpl; lia.
Defined.

Lemma div_zero_copies x sg :
  int64_of_float (f64_mul (f64_div x (S754_zero sg)) (float64_of_int 100)) = int64_min.
Proof.
  destruct x as [s|s| |s m e]; destruct sg; try destruct s; reflexivity.
Qed.

(** X9: In the string variant, [createPool] with [maxFitness] equal to 0.0 returns an empty pool: each [num] converts a NaN or an infinity, which gives a negative count. *)
Theorem text_createPool_zero_maxFitness population target sg population' pool :
  Text.createPool population target (S754_zero sg) = Some (population', pool) -> pool = [].
Proof.
  revert population' pool; induction population as [|d rest IH]; intros population' pool H; simpl in H.
  - congruence.
  - destruct (Text.calcFitness d target) as [d'|]; [|discriminate].
    destruct (Text.createPool rest target (S754_zero sg)) as [[pop'' pool']|] eqn:E; [|discriminate].
    injection H as _ <-. rewrite div_zero_copies. simpl.
    apply (IH pop''). reflexivity.
Qed.

Lemma text_createPool_zero_maxFitness_witness :
  Text.createPool [Text.mkDNA [x41] f64_zero] [x41] (S754_zero false) =
    Some ([Text.mkDNA [x41] (f64_div (float64_of_int 1) (float64_of_int 1))], []) /\
  @nil Text.DNA = [].
Proof.
  split; [vm_compute; reflexivity|].
  apply (text_createPool_zero_maxFitness [Text.mkDNA [x41] f64_zero] [x41] false
           [Text.mkDNA [x41] (f64_div (float64_of_int 1) (float64_of_int 1))] []).
  vm_compute. reflexivity.
Defined.

Lemma score_loop_none g t sc :
  Text.score_loop g t sc = None <-> (length t < length g)%nat.
Proof.
  revert t sc; induction g as [|x g IH]; intros [|y t] sc; simpl.
  1-3: split; intros; first [reflexivity | discriminate | lia].
  rewrite IH. lia.
Qed.

(** X10: [calcFitness] of the string variant panics exactly when the target is shorter than the gene. *)
Theorem text_calcFitness_panics_iff d target :
  Text.calcFitness d target = None <-> (length target < length (Text.Gene d))%nat.
Proof.
  rewrite <- (score_loop_none _ _ 0). unfold Text.calcFitness.
  destruct (Text.score_loop _ _ _); split; intros; congruence.
Qed.

Lemma go_index_some {A} (l : list A) i :
  0 <= i < Z.of_nat (length l) -> exists a, go_index l i = Some a /\ In a l.
Proof.
  intros Hi. unfold go_index. replace (i <? 0) with false by (symmetry; apply Z.ltb_ge; lia).
  destruct (nth_error l (Z.to_nat i)) as [a|] eqn:E.
  - exists a. split; [reflexivity | eapply nth_error_In; exact E].
  - apply nth_error_None in E. lia.
Qed.

Lemma selection_loop_invariant {T St} (rs : Rand St) cross mut fit (Q R : T -> Prop) pool :
  intn_ok rs -> pool <> [] ->
  (forall a b s, In a pool -> In b pool -> exists c s', cross a b s = Some (c, s') /\ Q c) ->
  (forall c s, Q c -> Q (fst (mut c s))) ->
  (forall c, Q c -> exists c', fit c = Some c' /\ R c') ->
  forall n s, exists next s',
    selection_loop rs cross mut fit pool n s = Some (next, s') /\ length next = n /\ Forall R next.
Proof.
  intros Hi Hp Hc Hm Hf n. induction n as [|n IH]; intros s; simpl.
  - exists [], s. auto.
  - assert (Hm0 : 0 < Z.of_nat (length pool)) by (destruct pool; [congruence | simpl; lia]).
    replace (Z.of_nat (length pool) <=? 0) with false by (symmetry; apply Z.leb_gt; lia).
    destruct (Intn rs (Z.of_nat (length pool)) s) as [r1 s1] eqn:E1.
    destruct (Intn rs (Z.of_nat (length pool)) s1) as [r2 s2] eqn:E2.
    pose proof (Hi _ s Hm0) as H1. rewrite E1 in H1. simpl in H1.
    pose proof (Hi _ s1 Hm0) as H2. rewrite E2 in H2. simpl in H2.
    destruct (go_index_some pool r1 H1) as (a & -> & Ha).
    destruct (go_index_some pool r2 H2) as (b & -> & Hb).
    destruct (Hc a b s2 Ha Hb) as (c & s3 & -> & Qc).
    pose proof (Hm c s3 Qc) as Qc'. destruct (mut c s3) as [c' s4]. simpl in Qc'.
    destruct (Hf c' Qc') as (c'' & -> & Rc).
    destruct (IH s4) as (next & s5 & -> & Hl & Hn).
    exists (c'' :: next), s5. simpl. auto.
Qed.

Lemma crossover_shape {St} (rs : Rand St) a b s :
  intn_ok rs -> length (Pix (DNA a)) = length (Pix (DNA b)) -> (0 < length (Pix (DNA a)))%nat ->
  exists c s', crossover rs a b s = Some (c, s') /\ length (Pix (DNA c)) = length (Pix (DNA a)) /\
    Stride (DNA c) = Stride (DNA a) /\ Rect (DNA c) = Rect (DNA a).
Proof.
  intros Hi Hl Hp. unfold crossover.
  replace (Z.of_nat (length (Pix (DNA a))) <=? 0) with false by (symmetry; apply Z.leb_gt; lia).
  destruct (Intn rs _ s) as [mid s'].
  destruct (crossover_loop_spec (Pix (DNA a)) (Pix (DNA b)) 0 mid ltac:(lia) ltac:(simpl; lia))
    as (c & -> & Hc & _).
  exists (mkOrganism (mkRGBA c (Stride (DNA a)) (Rect (DNA a))) 0), s'. simpl. auto.
Qed.

Lemma crossover_loop_forall {A} (P : A -> Prop) i mid p1 p2 c :
  crossover_loop i mid p1 p2 = Some c -> Forall P p1 -> Forall P p2 -> Forall P c.
Proof.
  revert i c; induction p1 as [|x p1 IH]; intros i c H H1 H2; simpl in H.
  - injection H as <-. constructor.
  - inversion H1; subst.
    destruct (i >? mid) eqn:Ei.
    + destruct (crossover_loop (i + 1) mid p1 p2) as [c'|] eqn:Ec; [|discriminate].
      injection H as <-. constructor; [assumption | eapply IH; eauto].
    + destruct (nth_error p2 (Z.to_nat i)) as [y|] eqn:Ey; [|discriminate].
      destruct (crossover_loop (i + 1) mid p1 p2) as [c'|] eqn:Ec; [|discriminate].
      injection H as <-. constructor.
      * eapply Forall_forall; [exact H2 | eapply nth_error_In; exact Ey].
      * eapply IH; eauto.
Qed.

Lemma text_crossover_shape {St} (rs : Rand St) (P : byte -> Prop) a b s :
  intn_ok rs -> length (Text.Gene a) = length (Text.Gene b) -> (0 < length (Text.Gene a))%nat ->
  Forall P (Text.Gene a) -> Forall P (Text.Gene b) ->
  exists c s', Text.crossover rs a b s = Some (c, s') /\
    length (Text.Gene c) = length (Text.Gene a) /\ Forall P (Text.Gene c).
Proof.
  intros Hi Hl Hp Ha Hb. unfold Text.crossover.
  replace (Z.of_nat (length (Text.Gene a)) <=? 0) with false by (symmetry; apply Z.leb_gt; lia).
  destruct (Intn rs _ s) as [mid s'].
  destruct (crossover_loop_spec (Text.Gene a) (Text.Gene b) 0 mid ltac:(lia) ltac:(simpl; lia))
    as (c & Ec & Hc & _).
  rewrite Ec. exists (Text.mkDNA c f64_zero), s'. simpl.
  split; [reflexivity|]. split; [exact Hc|]. eapply crossover_loop_forall; eauto.
Qed.

Lemma mutate_shape {St} (rs : Rand St) MutationRate o s :
  intn_ok rs ->
  length (Pix (DNA (fst (mutate rs MutationRate o s)))) = length (Pix (DNA o)) /\
  Stride (DNA (fst (mutate rs MutationRate o s))) = Stride (DNA o) /\
  Rect (DNA (fst (mutate rs MutationRate o s))) = Rect (DNA o).
Proof.
  intros Hi. unfold mutate.
  pose proof (mutate_loop_forall2 rs MutationRate 255 byte_of_int (fun _ => True) (Pix (DNA o)) s Hi
    ltac:(lia) ltac:(intros; exact I)) as H.
  apply Forall2_length in H.
  destruct (mutate_loop _ _ _ _ _ _) as [pix s']. simpl in *. auto.
Qed.

Lemma text_mutate_shape {St} (rs : Rand St) MutationRate d s :
  intn_ok rs ->
  length (Text.Gene (fst (Text.mutate rs MutationRate d s))) = length (Text.Gene d) /\
  (Forall (fun b => 32 <= u8 b <= 126) (Text.Gene d) ->
   Forall (fun b => 32 <= u8 b <= 126) (Text.Gene (fst (Text.mutate rs MutationRate d s)))).
Proof.
  intros Hi. unfold Text.mutate.
  pose proof (mutate_loop_forall2 rs MutationRate 95 (fun v => byte_of_int (v + 32))
    (fun y => 32 <= u8 y <= 126) (Text.Gene d) s Hi
    ltac:(lia) ltac:(intros v Hv; simpl; rewrite u8_byte_of_int by lia; lia)) as H.
  destruct (mutate_loop _ _ _ _ _ _) as [g s']. simpl in *.
  split; [symmetry; eapply Forall2_length; exact H|].
  intros Hd. clear - H Hd. induction H; [constructor|].
  inversion Hd; subst. constructor; [destruct H as [->|H]; assumption | auto].
Qed.

(** X11: [naturalSelection] of [monalisa/main.go], from a non-empty pool of images as long as a non-empty target, returns [len(population)] children, each as long as the target, with the stride and bounds of a pool member, and with fitness [diff(child.DNA, target)]. *)
Theorem naturalSelection_children {St} (rs : Rand St) MutationRate pool population target s :
  intn_ok rs -> pool <> [] -> (0 < length (Pix target))%nat ->
  (forall p, In p pool -> length (Pix (DNA p)) = length (Pix target)) ->
  exists next s', naturalSelection rs MutationRate pool population target s = Some (next, s') /\
    length next = length population /\
    Forall (fun c =>
      length (Pix (DNA c)) = length (Pix target) /\
      (exists p, In p pool /\ Stride (DNA c) = Stride (DNA p) /\ Rect (DNA c) = Rect (DNA p)) /\
      diff (DNA c) target = Some (Fitness c)) next.
Proof.
  intros Hi Hp Ht Hl. unfold naturalSelection.
  set (Q := fun c => length (Pix (DNA c)) = length (Pix target) /\
      (exists p, In p pool /\ Stride (DNA c) = Stride (DNA p) /\ Rect (DNA c) = Rect (DNA p))).
  refine (selection_loop_invariant rs _ _ _ Q _ pool _ _ _ _ _ _ _).
  - exact Hi.
  - exact Hp.
  - intros a b s0 Ha Hb.
    destruct (crossover_shape rs a b s0 Hi ltac:(rewrite !Hl by assumption; reflexivity)
      ltac:(rewrite Hl by assumption; exact Ht)) as (c & s' & Ec & Hc1 & Hc2 & Hc3).
    exists c, s'. split; [exact Ec|]. split; [rewrite Hc1; auto|]. exists a. auto.
  - intros c s0 (Hc1 & p & Hp1 & Hp2 & Hp3).
    destruct (mutate_shape rs MutationRate c s0 Hi) as (M1 & M2 & M3).
    split; [congruence|]. exists p. split; [exact Hp1|]. split; congruence.
  - intros c Qc. destruct Qc as [Hc1 Hc2].
    destruct (diff_loop_defined (Pix (DNA c)) (Pix target) 0 Hc1) as [d Ed].
    assert (Hd : diff (DNA c) target = Some (int64_of_float (f64_sqrt (float64_of_int d))))
      by (unfold diff; rewrite Ed; reflexivity).
    exists (mkOrganism (DNA c) (int64_of_float (f64_sqrt (float64_of_int d)))).
    split; [apply calcFitness_diff; exact Hd|]. simpl. auto.
Qed.

Lemma naturalSelection_children_witness :
  exists next s',
    naturalSelection sample_rand f64_one [mkOrganism (image4x4 [x01; x02]) 0]
      [mkOrganism (image4x4 [x01; x02]) 0; mkOrganism (image4x4 [x01; x02]) 0]
      (image4x4 [x00; x00]) 0%nat = Some (next, s') /\ length next = 2%nat.
Proof.
  destruct (naturalSelection_children sample_rand f64_one [mkOrganism (image4x4 [x01; x02]) 0]
      [mkOrganism (image4x4 [x01; x02]) 0; mkOrganism (image4x4 [x01; x02]) 0]
      (image4x4 [x00; x00]) 0%nat (fun n s Hn => ltac:(simpl; lia)) ltac:(discriminate)
      ltac:(simpl; lia) ltac:(intros p Hp; simpl in Hp; destruct Hp as [<-|[]]; reflexivity))
    as (next & s' & E & L & _).
  exists next, s'. split; [exact E | exact L].
Defined.

(** X12: [naturalSelection] of the string variant, from a non-empty pool of printable genes as long as a non-empty target, returns [len(population)] printable children as long as the target, each with fitness (matches / length). *)
Theorem text_naturalSelection_children {St} (rs : Rand St) MutationRate pool population target s :
  intn_ok rs -> pool <> [] -> (0 < length target)%nat ->
  (forall p, In p pool -> length (Text.Gene p) = length target /\
                          Forall (fun b => 32 <= u8 b <= 126) (Text.Gene p)) ->
  exists next s', Text.naturalSelection rs MutationRate pool population target s = Some (next, s') /\
    length next = length population /\
    Forall (fun c =>
      length (Text.Gene c) = length target /\ Forall (fun b => 32 <= u8 b <= 126) (Text.Gene c) /\
      Text.Fitness c = f64_div (float64_of_int (matches (Text.Gene c) target))
                               (float64_of_int (Z.of_nat (length target)))) next.
Proof.
  intros Hi Hp Ht Hl. unfold Text.naturalSelection.
  set (Q := fun c => length (Text.Gene c) = length target /\
                     Forall (fun b => 32 <= u8 b <= 126) (Text.Gene c)).
  refine (selection_loop_invariant rs _ _ _ Q _ pool _ _ _ _ _ _ _).
  - exact Hi.
  - exact Hp.
  - intros a b s0 Ha Hb. destruct (Hl a Ha) as [Ha1 Ha2]. destruct (Hl b Hb) as [Hb1 Hb2].
    destruct (text_crossover_shape rs _ a b s0 Hi ltac:(congruence) ltac:(lia) Ha2 Hb2)
      as (c & s' & Ec & Hc1 & Hc2).
    exists c, s'. split; [exact Ec|]. split; [congruence | exact Hc2].
  - intros c s0 [Hc1 Hc2]. destruct (text_mutate_shape rs MutationRate c s0 Hi) as [M1 M2].
    split; [congruence | auto].
  - intros c [Hc1 Hc2]. eexists. split.
    + unfold Text.calcFitness. rewrite score_loop_matches by lia. reflexivity.
    + simpl. rewrite Hc1. auto.
Qed.

Lemma text_naturalSelection_children_witness :
  exists next s',
    Text.naturalSelection sample_rand f64_one [Text.mkDNA [x41; x42] f64_zero]
      [Text.mkDNA [x41; x42] f64_zero] [x41; x41] 0%nat = Some (next, s') /\ length next = 1%nat.
Proof.
  destruct (text_naturalSelection_children sample_rand f64_one [Text.mkDNA [x41; x42] f64_zero]
      [Text.mkDNA [x41; x42] f64_zero] [x41; x41] 0%nat (fun n s Hn => ltac:(simpl; lia))
      ltac:(discriminate) ltac:(simpl; lia)
      ltac:(intros p Hp; simpl in Hp; destruct Hp as [<-|[]];
            split; [reflexivity | repeat constructor; vm_compute; discriminate]))
    as (next & s' & E & L & _).
  exists next, s'. split; [exact E | exact L].
Defined.



Lemma randomGene_printable {St} (rs : Rand St) n s :
  intn_ok rs ->
  length (fst (Text.randomGene rs n s)) = n /\
  Forall (fun b => 32 <= u8 b <= 126) (fst (Text.randomGene rs n s)).
Proof.
  intros Hi. revert s; induction n as [|n IH]; intros s; simpl; [auto|].
  destruct (Intn rs 95 s) as [v s1] eqn:Ev.
  pose proof (Hi 95 s ltac:(lia)) as Hv. rewrite Ev in Hv. simpl in Hv.
  specialize (IH s1). destruct (Text.randomGene rs n s1) as [g s2]. simpl in *.
  destruct IH as [IH1 IH2]. split; [lia|].
  constructor; [rewrite u8_byte_of_int by lia; lia | exact IH2].
Qed.

(** X14: [createPopulation] of the string variant returns [PopSize] DNAs whose genes are printable, as long as the target, and scored (matches / length). *)
Theorem text_createPopulation_spec {St} (rs : Rand St) PopSize target s :
  intn_ok rs ->
  exists population s', Text.createPopulation rs PopSize target s = Some (population, s') /\
    length population = PopSize /\
    Forall (fun d =>
      length (Text.Gene d) = length target /\ Forall (fun b => 32 <= u8 b <= 126) (Text.Gene d) /\
      Text.Fitness d = f64_div (float64_of_int (matches (Text.Gene d) target))
                               (float64_of_int (Z.of_nat (length target)))) population.
Proof.
  intros Hi. revert s; induction PopSize as [|n IH]; intros s; simpl; [exists [], s; auto|].
  unfold Text.createDNA.
  pose proof (randomGene_printable rs (length target) s Hi) as [H1 H2].
  destruct (Text.randomGene rs (length target) s) as [g s1]. simpl in H1, H2.
  unfold Text.calcFitness. simpl Text.Gene. rewrite score_loop_matches by lia.
  destruct (IH s1) as (population & s2 & -> & Hl & Hf).
  eexists _, s2. split; [reflexivity|]. split; [simpl; lia|].
  constructor; [|exact Hf]. simpl. rewrite H1. auto.
Qed.

Lemma text_createPopulation_spec_witness :
  exists population s',
    Text.createPopulation sample_rand 3 [x41; x42] 0%nat = Some (population, s') /\
    length population = 3%nat.
Proof.
  destruct (text_createPopulation_spec sample_rand 3 [x41; x42] 0%nat (fun n s Hn => ltac:(simpl; lia)))
    as (population & s' & E & L & _).
  exists population, s'. split; [exact E | exact L].
Defined.

(** X15: [createPopulation] of [monalisa/main.go] returns [PopSize] organisms with the target's stride, bounds and buffer length, each with fitness [diff(DNA, target)]. *)
Theorem createPopulation_spec {St} (rd : Reader St) PopSize target s :
  read_ok rd ->
  exists population s', createPopulation rd PopSize target s = Some (population, s') /\
    length population = PopSize /\
    Forall (fun o =>
      Stride (DNA o) = Stride target /\ Rect (DNA o) = Rect target /\
      length (Pix (DNA o)) = length (Pix target) /\
      diff (DNA o) target = Some (Fitness o)) population.
Proof.
  intros Hr. revert s; induction PopSize as [|n IH]; intros s; simpl; [exists [], s; auto|].
  unfold createOrganism, createRandomImageFrom.
  pose proof (Hr (repeat x00 (length (Pix target))) s) as Hlen. rewrite repeat_length in Hlen.
  destruct (Read rd (repeat x00 (length (Pix target))) s) as [pix s1]. simpl in Hlen.
  destruct (diff_loop_defined pix (Pix target) 0 Hlen) as [d Ed].
  assert (Hd : diff (mkRGBA pix (Stride target) (Rect target)) target =
               Some (int64_of_float (f64_sqrt (float64_of_int d))))
    by (unfold diff; simpl; rewrite Ed; reflexivity).
  rewrite (calcFitness_diff (mkOrganism (mkRGBA pix (Stride target) (Rect target)) 0) target _ Hd).
  destruct (IH s1) as (population & s2 & -> & Hl & Hf).
  eexists _, s2. split; [reflexivity|]. split; [simpl; lia|].
  constructor; [|exact Hf]. simpl. auto.
Qed.

Lemma createPopulation_spec_witness :
  exists population s',
    createPopulation sample_reader 3 (image4x4 [x01; x02]) 0%nat = Some (population, s') /\
    length population = 3%nat.
Proof.
  destruct (createPopulation_spec sample_reader 3 (image4x4 [x01; x02]) 0%nat
              (fun p s => ltac:(simpl; apply length_map)))
    as (population & s' & E & L & _).
  exists population, s'. split; [exact E | exact L].
Defined.

Lemma randomColor_spec {St} (rs : Rand St) s :
  intn_ok rs ->
  Forall (fun b => u8 b <= 254)
    [color.R (fst (randomColor rs s)); color.G (fst (randomColor rs s));
     color.B (fst (randomColor rs s)); color.A (fst (randomColor rs s))].
Proof.
  intros Hi. unfold randomColor.
  destruct (Intn rs 255 s) as [r s1] eqn:E1.
  destruct (Intn rs 255 s1) as [g s2] eqn:E2.
  destruct (Intn rs 255 s2) as [b s3] eqn:E3.
  destruct (Intn rs 255 s3) as [a s4] eqn:E4.
  pose proof (Hi 255 s ltac:(lia)) as H1. rewrite E1 in H1.
  pose proof (Hi 255 s1 ltac:(lia)) as H2. rewrite E2 in H2.
  pose proof (Hi 255 s2 ltac:(lia)) as H3. rewrite E3 in H3.
  pose proof (Hi 255 s3 ltac:(lia)) as H4. rewrite E4 in H4.
  simpl in *. repeat constructor; rewrite u8_byte_of_int; lia.
Qed.

(** X16: [createTriangle(w, h)] panics when [w <= 0] or [h <= 0]; otherwise [P1] lies in [[0, w) x [0, h)], [P2] and [P3] lie within -15 .. +14 of [P1] on each axis, and no colour channel is 255. *)
Theorem createTriangle_spec {St} (rs : Rand St) w h s :
  intn_ok rs ->
  ((w <= 0 \/ h <= 0) -> Triangles.createTriangle rs w h s = None) /\
  (0 < w < 2 ^ 62 -> 0 < h < 2 ^ 62 ->
   exists t s', Triangles.createTriangle rs w h s = Some (t, s') /\
     0 <= X (Triangles.P1 t) < w /\ 0 <= Y (Triangles.P1 t) < h /\
     Forall (fun p => X (Triangles.P1 t) - 15 <= X p <= X (Triangles.P1 t) + 14 /\
                      Y (Triangles.P1 t) - 15 <= Y p <= Y (Triangles.P1 t) + 14)
       [Triangles.P2 t; Triangles.P3 t] /\
     Forall (fun b => u8 b <= 254)
       [color.R (Triangles.Color t); color.G (Triangles.Color t);
        color.B (Triangles.Color t); color.A (Triangles.Color t)]).
Proof.
  intros Hi. split.
  - intros Hwh. unfold Triangles.createTriangle.
    destruct (w <=? 0) eqn:Ew; [reflexivity|].
    destruct (Intn rs w s) as [x1 s1].
    replace (h <=? 0) with true by (symmetry; apply Z.leb_le; lia). reflexivity.
  - intros Hw Hh. unfold Triangles.createTriangle.
    replace (w <=? 0) with false by (symmetry; apply Z.leb_gt; lia).
    replace (h <=? 0) with false by (symmetry; apply Z.leb_gt; lia).
    destruct (Intn rs w s) as [x1 s1] eqn:E1.
    destruct (Intn rs h s1) as [y1 s2] eqn:E2.
    destruct (Intn rs 30 s2) as [dx2 s3] eqn:E3.
    destruct (Intn rs 30 s3) as [dy2 s4] eqn:E4.
    destruct (Intn rs 30 s4) as [dx3 s5] eqn:E5.
    destruct (Intn rs 30 s5) as [dy3 s6] eqn:E6.
    pose proof (randomColor_spec rs s6 Hi) as Hc.
    destruct (randomColor rs s6) as [c s7]. simpl in Hc.
    pose proof (Hi w s ltac:(lia)) as H1. rewrite E1 in H1.
    pose proof (Hi h s1 ltac:(lia)) as H2. rewrite E2 in H2.
    pose proof (Hi 30 s2 ltac:(lia)) as H3. rewrite E3 in H3.
    pose proof (Hi 30 s3 ltac:(lia)) as H4. rewrite E4 in H4.
    pose proof (Hi 30 s4 ltac:(lia)) as H5. rewrite E5 in H5.
    pose proof (Hi 30 s5 ltac:(lia)) as H6. rewrite E6 in H6.
    simpl in H1, H2, H3, H4, H5, H6.
    eexists _, s7. split; [reflexivity|]. simpl.
    rewrite (wrap64_id (dx2 - 15)), (wrap64_id (dy2 - 15)), (wrap64_id (dx3 - 15)), (wrap64_id (dy3 - 15)) by lia.
    rewrite !wrap64_id by lia.
    split; [lia|]. split; [lia|].
    split; [constructor; [simpl; split; lia | constructor; [simpl; split; lia | constructor]] | exact Hc].
Qed.

Lemma createTriangle_spec_witness :
  Triangles.createTriangle sample_rand 0 5 0%nat = None /\
  exists t s', Triangles.createTriangle sample_rand 100 50 0%nat = Some (t, s') /\
    0 <= X (Triangles.P1 t) < 100.
Proof.
  destruct (createTriangle_spec sample_rand 0 5 0%nat (fun n s Hn => ltac:(simpl; lia))) as [H0 _].
  destruct (createTriangle_spec sample_rand 100 50 0%nat (fun n s Hn => ltac:(simpl; lia))) as [_ H1].
  split; [apply H0; lia|].
  destruct (H1 ltac:(lia) ltac:(lia)) as (t & s' & E & Hx & _).
  exists t, s'. split; [exact E | exact Hx].
Defined.

(** X17: [createCircle(w, h)] panics when [w], [h] or [MaxCircleSize] is not positive; otherwise the centre lies in [[0, w) x [0, h)], the radius in [[0, MaxCircleSize)], and no colour channel is 255. *)
Theorem createCircle_spec {St} (rs : Rand St) MaxCircleSize w h s :
  intn_ok rs ->
  ((w <= 0 \/ h <= 0 \/ MaxCircleSize <= 0) -> Circles.createCircle rs MaxCircleSize w h s = None) /\
  (0 < w -> 0 < h -> 0 < MaxCircleSize ->
   exists c s', Circles.createCircle rs MaxCircleSize w h s = Some (c, s') /\
     0 <= Circles.X c < w /\ 0 <= Circles.Y c < h /\ 0 <= Circles.R c < MaxCircleSize /\
     Forall (fun b => u8 b <= 254)
       [color.R (Circles.Color c); color.G (Circles.Color c);
        color.B (Circles.Color c); color.A (Circles.Color c)]).
Proof.
  intros Hi. split.
  - intros Hwh. unfold Circles.createCircle.
    destruct (w <=? 0) eqn:Ew; [reflexivity|].
    destruct (Intn rs w s) as [x s1].
    destruct (h <=? 0) eqn:Eh; [reflexivity|].
    destruct (Intn rs h s1) as [y s2].
    replace (MaxCircleSize <=? 0) with true by (symmetry; apply Z.leb_le; lia). reflexivity.
  - intros Hw Hh Hm. unfold Circles.createCircle.
    replace (w <=? 0) with false by (symmetry; apply Z.leb_gt; lia).
    replace (h <=? 0) with false by (symmetry; apply Z.leb_gt; lia).
    replace (MaxCircleSize <=? 0) with false by (symmetry; apply Z.leb_gt; lia).
    destruct (Intn rs w s) as [x s1] eqn:E1.
    destruct (Intn rs h s1) as [y s2] eqn:E2.
    destruct (Intn rs MaxCircleSize s2) as [r s3] eqn:E3.
    pose proof (randomColor_spec rs s3 Hi) as Hc.
    destruct (randomColor rs s3) as [c s4]. simpl in Hc.
    pose proof (Hi w s ltac:(lia)) as H1. rewrite E1 in H1.
    pose proof (Hi h s1 ltac:(lia)) as H2. rewrite E2 in H2.
    pose proof (Hi MaxCircleSize s2 ltac:(lia)) as H3. rewrite E3 in H3.
    simpl in H1, H2, H3.
    eexists _, s4. split; [reflexivity|]. simpl. auto.
Qed.

Lemma createCircle_spec_witness :
  Circles.createCircle sample_rand 8 10 0 0%nat = None /\
  exists c s', Circles.createCircle sample_rand 8 100 50 0%nat = Some (c, s') /\
    0 <= Circles.R c < 8.
Proof.
  destruct (createCircle_spec sample_rand 8 10 0 0%nat (fun n s Hn => ltac:(simpl; lia))) as [H0 _].
  destruct (createCircle_spec sample_rand 8 100 50 0%nat (fun n s Hn => ltac:(simpl; lia))) as [_ H1].
  split; [apply H0; lia|].
  destruct (H1 ltac:(lia) ltac:(lia) ltac:(lia)) as (c & s' & E & _ & _ & Hr & _).
  exists c, s'. split; [exact E | exact Hr].
Defined.

Lemma crossover_loop_none {A} i mid (p1 p2 : list A) :
  0 <= i ->
  (crossover_loop i mid p1 p2 = None <->
   exists k, (k < length p1)%nat /\ i + Z.of_nat k <= mid /\ (length p2 <= Z.to_nat i + k)%nat).
Proof.
  revert i; induction p1 as [|x p1 IH]; intros i Hi; simpl.
  - split; [discriminate | intros (k & Hk & _); lia].
  - assert (Hs : Z.to_nat (i + 1) = S (Z.to_nat i)) by (rewrite Z2Nat.inj_add by lia; simpl; lia).
    specialize (IH (i + 1) ltac:(lia)). rewrite Hs in IH.
    destruct (i >? mid) eqn:Ei.
    + apply Z.gtb_lt in Ei.
      destruct (crossover_loop (i + 1) mid p1 p2) eqn:Er.
      * split; [discriminate | intros (k & _ & Hk & _); lia].
      * exfalso. destruct (proj1 IH eq_refl) as (k & _ & Hk & _). lia.
    + rewrite Z.gtb_ltb in Ei. apply Z.ltb_ge in Ei.
      destruct (nth_error p2 (Z.to_nat i)) as [y|] eqn:Ey.
      * assert (Hy : (Z.to_nat i < length p2)%nat) by (apply nth_error_Some; congruence).
        destruct (crossover_loop (i + 1) mid p1 p2) eqn:Er.
        -- split; [discriminate|]. intros ([|k] & Hk1 & Hk2 & Hk3); [lia|].
           enough (Hn : Some l = None) by discriminate.
           apply IH. exists k. split; [lia|]. split; [lia|]. lia.
        -- split; [intros _|reflexivity].
           destruct (proj1 IH eq_refl) as (k & Hk1 & Hk2 & Hk3).
           exists (S k). split; [lia|]. split; [lia|]. lia.
      * split; [intros _|reflexivity].
        apply nth_error_None in Ey. exists 0%nat. split; [lia|]. split; [lia|]. lia.
Qed.

Lemma crossover_loop0_none {A} mid (p1 p2 : list A) :
  0 <= mid < Z.of_nat (length p1) ->
  (crossover_loop 0 mid p1 p2 = None <-> Z.of_nat (length p2) <= mid).
Proof.
  intros Hm. rewrite crossover_loop_none by lia. simpl Z.to_nat. split.
  - intros (k & Hk1 & Hk2 & Hk3). lia.
  - intros H. exists (length p2). split; [lia|]. split; lia.
Qed.

(** X18: Both [crossover]s panic exactly when the first parent is empty or the drawn cut [mid] is at least the length of the second parent. *)
Theorem crossover_panics_iff {St} (rs : Rand St) s :
  intn_ok rs ->
  (forall d1 d2 : Organism,
     crossover rs d1 d2 s = None <->
     length (Pix (DNA d1)) = 0%nat \/
     Z.of_nat (length (Pix (DNA d2))) <= fst (Intn rs (Z.of_nat (length (Pix (DNA d1)))) s)) /\
  (forall d1 d2 : Text.DNA,
     Text.crossover rs d1 d2 s = None <->
     length (Text.Gene d1) = 0%nat \/
     Z.of_nat (length (Text.Gene d2)) <= fst (Intn rs (Z.of_nat (length (Text.Gene d1))) s)).
Proof.
  intros Hi. split; intros d1 d2.
  - unfold crossover. destruct (Z.of_nat (length (Pix (DNA d1))) <=? 0) eqn:E0.
    + apply Z.leb_le in E0. split; [intros _; left; lia | reflexivity].
    + apply Z.leb_gt in E0. pose proof (Hi _ s E0) as Hm.
      destruct (Intn rs (Z.of_nat (length (Pix (DNA d1)))) s) as [mid s'] eqn:E. cbn [fst] in Hm |- *.
      rewrite <- (crossover_loop0_none mid (Pix (DNA d1)) (Pix (DNA d2)) Hm).
      destruct (crossover_loop 0 mid _ _); split; intros H; try discriminate; try reflexivity.
      * destruct H as [H|H]; [lia | discriminate].
      * right. reflexivity.
  - unfold Text.crossover. destruct (Z.of_nat (length (Text.Gene d1)) <=? 0) eqn:E0.
    + apply Z.leb_le in E0. split; [intros _; left; lia | reflexivity].
    + apply Z.leb_gt in E0. pose proof (Hi _ s E0) as Hm.
      destruct (Intn rs (Z.of_nat (length (Text.Gene d1))) s) as [mid s'] eqn:E. cbn [fst] in Hm |- *.
      rewrite <- (crossover_loop0_none mid (Text.Gene d1) (Text.Gene d2) Hm).
      destruct (crossover_loop 0 mid _ _); split; intros H; try discriminate; try reflexivity.
      * destruct H as [H|H]; [lia | discriminate].
      * right. reflexivity.
Qed.

Lemma crossover_panics_iff_witness :
  crossover sample_rand (mkOrganism (image4x4 [x01; x02; x03]) 0)
    (mkOrganism (image4x4 [x04; x05]) 0) 0%nat = None /\
  Text.crossover sample_rand (Text.mkDNA [x41; x42] f64_zero) (Text.mkDNA [x43; x44] f64_zero) 0%nat <> None.
Proof.
  destruct (crossover_panics_iff sample_rand 0%nat (fun n s Hn => ltac:(simpl; lia))) as [H1 H2].
  split.
  - apply H1. right. simpl. lia.
  - intros H. apply H2 in H. simpl in H. lia.
Defined.
